(** * LightningDeviceSDK, Teensy 4.1 firmware example:
  [RingBufferSized.h] and [ADIPackets.h]

    A shallow embedding of the two headers and the properties of the
    single-producer/single-consumer ring buffer and of the packet writers.

    Conventions of the embedding.
    - [int] ([TIndex], [mPoint], [gADCPointsPerPacket]) is a [Z].  On the
      states the methods can reach every intermediate value of the index
      arithmetic lies between [-Size] and [2 * Size], so no signed overflow
      is involved (see [GetCount_raw_range]).
    - [uint8_t] is a [Z] in [0, 256) with the wrap-around written out;
      [size_t] is the 32-bit unsigned type of the target.  An argument of
      a fixed-width type ([int16_t sample], [uint8_t timeRequestNumber],
      ...) is the value after the conversion the call makes, a [Z] in the
      range of the type; a theorem that depends on the value states the
      range.
    - A C array is a [list]; indexing outside it, and a [memcpy] outside
      source or destination, is undefined behaviour and is the [None] of
      the [option] monad.  The methods therefore return [option]s, and the
      theorems show that they return [Some] under the stated conditions.
    - An out-parameter [T *val] is a cell: the method takes its old content
      and returns its new content. *)

From Stdlib Require Import Ascii.
From stdpp Require Import base tactics numbers option list.

Local Open Scope Z_scope.

(** ** C arrays *)

Section arrays.
Context {A : Type}.

(** [a[i]] as an rvalue. *)
Definition arr_get (a : list A) (i : Z) : option A :=
  if decide (0 ≤ i) then a !! Z.to_nat i else None.

(** [a[i] = v]. *)
Definition arr_set (a : list A) (i : Z) (v : A) : option (list A) :=
  if decide (0 ≤ i < Z.of_nat (length a))
  then Some (<[Z.to_nat i := v]> a) else None.

(** [memcpy(dst + doff, src + soff, len * sizeof(A))] for an element count
    [len >= 0], whose bytes the code passes as they are.  A negative [len]
    is taken as undefined: the code converts the product to the unsigned
    [size_t], which for all but a few negative counts is more than any
    array holds (see [PushN_negative_count]). *)
Definition memcpy (dst : list A) (doff : Z) (src : list A) (soff len : Z)
  : option (list A) :=
  if decide (0 ≤ len ∧ 0 ≤ doff ∧ doff + len ≤ Z.of_nat (length dst)
             ∧ 0 ≤ soff ∧ soff + len ≤ Z.of_nat (length src))
  then Some (list_inserts (Z.to_nat doff)
               (take (Z.to_nat len) (drop (Z.to_nat soff) src)) dst)
  else None.
End arrays.

(** ** RingBufferSized.h *)

Module RingBufferSized.
Section ring.
Context {T : Type}.
(** The template parameter [int Size]. *)
Variable Size : Z.

Record t := Build { mBuffer : list T; mIn : Z; mOut : Z }.

(** [RingBufferSized() : mIn(0), mOut(0)]; the backing array is not
    initialised, [garbage] is whatever it holds. *)
Definition create (garbage : list T) : t :=
  {| mBuffer := garbage; mIn := 0; mOut := 0 |}.

(** [void Clear()] *)
Definition Clear (rb : t) : t :=
  {| mBuffer := mBuffer rb; mIn := mIn rb; mOut := mIn rb |}.

(** [TIndex GetCount() const] *)
Definition GetCount (rb : t) : Z :=
  let result := mIn rb - mOut rb in
  if decide (result < 0) then result + Size else result.

(** [TIndex GetSpace() const] *)
Definition GetSpace (rb : t) : Z := (Size - 1) - GetCount rb.

(** [mIn++; if (mIn >= Size) mIn -= Size;] and the same for [mOut]. *)
Definition wrap (i : Z) : Z := if decide (i >= Size) then i - Size else i.

(** [bool Push(T val)] *)
Definition Push (val : T) (rb : t) : option (bool * t) :=
  if decide (GetSpace rb ≠ 0) then
    buf ← arr_set (mBuffer rb) (mIn rb) val;
    Some (true, {| mBuffer := buf; mIn := wrap (mIn rb + 1); mOut := mOut rb |})
  else Some (false, rb).

(** [int Push(const T *val, TIndex nToPushIn)] *)
Definition PushN (val : list T) (nToPushIn : Z) (rb : t) : option (Z * t) :=
  let space := GetSpace rb in
  let '(nToPushRemain, space) :=
    if decide (nToPushIn > space) then (space, space)
    else (nToPushIn, nToPushIn) in
  if decide (nToPushRemain ≠ 0) then
    let lenToCopy1 := Size - mIn rb in
    let lenToCopy1 :=
      if decide (lenToCopy1 > nToPushRemain) then nToPushRemain
      else lenToCopy1 in
    buf1 ← memcpy (mBuffer rb) (mIn rb) val 0 lenToCopy1;
    let mIn1 := wrap (mIn rb + lenToCopy1) in
    let nToPushRemain := nToPushRemain - lenToCopy1 in
    if decide (nToPushRemain ≠ 0) then
      buf2 ← memcpy buf1 0 val lenToCopy1 nToPushRemain;
      let mIn2 := wrap (mIn1 + nToPushRemain) in
      Some (space, {| mBuffer := buf2; mIn := mIn2; mOut := mOut rb |})
    else
      Some (space, {| mBuffer := buf1; mIn := mIn1; mOut := mOut rb |})
  else Some (space, rb).

(** [bool Get(T *val) const] *)
Definition GetTo (val : T) (rb : t) : option (bool * T) :=
  if decide (GetCount rb ≠ 0) then
    x ← arr_get (mBuffer rb) (mOut rb); Some (true, x)
  else Some (false, val).

(** [const T &Get() const] *)
Definition Get (rb : t) : option T := arr_get (mBuffer rb) (mOut rb).

(** [const T &GetNext()] *)
Definition GetNext (rb : t) : option (T * t) :=
  result ← arr_get (mBuffer rb) (mOut rb);
  Some (result,
        {| mBuffer := mBuffer rb; mIn := mIn rb; mOut := wrap (mOut rb + 1) |}).

(** [bool GetNext(T *val)] *)
Definition GetNextTo (val : T) (rb : t) : option (bool * T * t) :=
  if decide (GetCount rb ≠ 0) then
    x ← arr_get (mBuffer rb) (mOut rb);
    Some (true, x,
          {| mBuffer := mBuffer rb; mIn := mIn rb; mOut := wrap (mOut rb + 1) |})
  else Some (false, val, rb).

(** [bool NextOut()] *)
Definition NextOut (rb : t) : option (bool * t) :=
  if decide (GetCount rb ≠ 0) then
    Some (true,
          {| mBuffer := mBuffer rb; mIn := mIn rb; mOut := wrap (mOut rb + 1) |})
  else Some (false, rb).

(** The class invariant: the array has [Size] slots and both cursors
    index into it. *)
Definition wf (rb : t) : Prop :=
  Z.of_nat (length (mBuffer rb)) = Size
  ∧ 0 ≤ mIn rb < Size ∧ 0 ≤ mOut rb < Size.

(** The unread elements, oldest first. *)
Definition contents (rb : t) : list T :=
omap (λ i, arr_get (mBuffer rb) ((mOut rb + i) `mod` Size))
     (seqZ 0 (GetCount rb)).

(** One call of a public method; results are dropped, the buffer kept.
    The bulk [Push] is called with the length of the array it is given. *)
Inductive op :=
| OpPush (val : T)
| OpPushN (val : list T)
| OpGetTo (val : T)
| OpGet
| OpGetNext
| OpGetNextTo (val : T)
| OpNextOut
| OpClear.

Definition step (o : op) (rb : t) : option t :=
  match o with
  | OpPush val => snd <$> Push val rb
  | OpPushN val => snd <$> PushN val (Z.of_nat (length val)) rb
  | OpGetTo val => _ ← GetTo val rb; Some rb
  | OpGet => _ ← Get rb; Some rb
  | OpGetNext => snd <$> GetNext rb
  | OpGetNextTo val => snd <$> GetNextTo val rb
  | OpNextOut => snd <$> NextOut rb
  | OpClear => Some (Clear rb)
  end.

Fixpoint run (ops : list op) (rb : t) : option t :=
  match ops with
  | [] => Some rb
  | o :: ops => rb' ← step o rb; run ops rb'
  end.

(** [Push] of each element of [vals] in turn; the results of the calls. *)
Fixpoint push_all (vals : list T) (rb : t) : option (list bool * t) :=
  match vals with
  | [] => Some ([], rb)
  | v :: vals =>
      '(ok, rb1) ← Push v rb;
      '(oks, rb2) ← push_all vals rb1;
      Some (ok :: oks, rb2)
  end.

(** [GetNext(T *val)] called [n] times on the cell [val]; the results of the
    calls and the content of the cell after each. *)
Fixpoint pop_all (n : nat) (val : T) (rb : t) : option (list (bool * T) * t) :=
  match n with
  | O => Some ([], rb)
  | S n =>
      '(ok, val1, rb1) ← GetNextTo val rb;
      '(rest, rb2) ← pop_all n val1 rb1;
      Some ((ok, val1) :: rest, rb2)
  end.

(** The backing array after the two [memcpy]s of [PushN] have copied the
    first [k] elements of [val]: [len1] of them from the write cursor up to
    the end of the array at most, the others to its start. *)
Definition copy_two_ranges (val : list T) (k : Z) (rb : t) : list T :=
  let len1 := Z.min k (Size - mIn rb) in
  list_inserts 0 (take (Z.to_nat (k - len1)) (drop (Z.to_nat len1) val))
    (list_inserts (Z.to_nat (mIn rb)) (take (Z.to_nat len1) val) (mBuffer rb)).

(** The buffer after [mOut++; if (mOut >= Size) mOut -= Size;], the update
    the three popping methods share. *)
Definition advanced (rb : t) : t :=
  {| mBuffer := mBuffer rb; mIn := mIn rb; mOut := wrap (mOut rb + 1) |}.

(** The bounded first-in first-out queue the buffer is meant to be, on the
    list of unread elements (oldest first): at most [Size - 1] of them.  A
    call of the unchecked [GetNext()] on the empty queue is outside the
    contract ([None]); the unchecked [Get()] only reads. *)
Definition fifo_step (o : op) (q : list T) : option (list T) :=
  match o with
  | OpPush val =>
      Some (if decide (Z.of_nat (length q) < Size - 1) then q ++ [val] else q)
  | OpPushN val =>
      Some (q ++ take (Z.to_nat (Size - 1 - Z.of_nat (length q))) val)
  | OpGetTo _ | OpGet => Some q
  | OpGetNext => match q with [] => None | _ :: q' => Some q' end
  | OpGetNextTo _ | OpNextOut => Some (tail q)
  | OpClear => Some []
  end.

Fixpoint fifo_run (ops : list op) (q : list T) : option (list T) :=
  match ops with
  | [] => Some q
  | o :: ops => q' ← fifo_step o q; fifo_run ops q'
  end.
End ring.
Global Arguments t : clear implicits.
Global Arguments op : clear implicits.
End RingBufferSized.

(** ** ADIPackets.h *)

Module ADIPackets.

Definition kPointsPerMediumSizePacket : Z := 10.
Definition kADCChannels : Z := 2.
Definition kPointsPerPacket : Z := 1.

(** A character literal as the byte it is stored in. *)
Definition char (c : ascii) : Z := Z.of_nat (nat_of_ascii c).

(** *** The target: object representations *)

Inductive ByteOrder := LittleEndian | BigEndian.

(** The byte order of the machine the firmware is compiled for. *)
Class Target := { native : ByteOrder }.

Fixpoint le_bytes (n : nat) (v : Z) : list Z :=
  match n with
  | O => []
  | S n => v `mod` 256 :: le_bytes n (v `div` 256)
  end.

(** What [reinterpret_cast<const uint8_t *>] sees of an integer object of
    [n] bytes holding [v] (two's complement for a negative [v]). *)
Definition object_bytes `{Target} (n : nat) (v : Z) : list Z :=
  match native with
  | LittleEndian => le_bytes n v
  | BigEndian => reverse (le_bytes n v)
  end.

Fixpoint le_value (bs : list Z) : Z :=
  match bs with
  | [] => 0
  | b :: bs => b + 256 * le_value bs
  end.

(** The unsigned and the signed integer a receiver of the same byte order
    reads back from [bs]. *)
Definition unsigned_of_bytes `{Target} (bs : list Z) : Z :=
  match native with
  | LittleEndian => le_value bs
  | BigEndian => le_value (reverse bs)
  end.

Definition signed_of_bytes `{Target} (bs : list Z) : Z :=
  let u := unsigned_of_bytes bs in
  let m := 256 ^ Z.of_nat (length bs) in
  if decide (2 * u < m) then u else u - m.

(** Conversion to [size_t] (32 bits on the Cortex-M7). *)
Definition to_size_t (z : Z) : Z := z `mod` 2 ^ 32.

(** Reading [size] bytes from the start of an object whose representation
    is [obj]. *)
Definition read_object (obj : list Z) (size : Z) : option (list Z) :=
  if decide (size ≤ Z.of_nat (length obj))
  then Some (take (Z.to_nat size) obj) else None.

(** *** The byte sink ([Stream] of Arduino.h, not part of these headers)

    Only the two [write] overloads are used.  Each returns the number of
    bytes it accepted, at most what it was given. *)
Class Stream (S : Type) := {
  (** [size_t write(uint8_t)] *)
  write1 : Z → S → Z * S;
  (** [size_t write(const uint8_t *buffer, size_t size)] *)
  writeN : list Z → S → Z * S;
  write1_count b s : 0 ≤ (write1 b s).1 ≤ 1;
  writeN_count bs s : 0 ≤ (writeN bs s).1 ≤ Z.of_nat (length bs)
}.

(** A sink that accepts everything: the bytes put on the wire so far. *)
Definition Wire := list Z.

#[export] Program Instance Wire_Stream : Stream Wire := {|
  write1 b s := (1, s ++ [b]);
  writeN bs s := (Z.of_nat (length bs), s ++ bs)
|}.
Next Obligation. intros; simpl; lia. Qed.
Next Obligation. intros; simpl; lia. Qed.

(** A sink that accepts nothing (a full transmit buffer): every [write]
    returns 0. *)
Definition Blocked := unit.

#[export] Program Instance Blocked_Stream : Stream Blocked := {|
  write1 b s := (0, s);
  writeN bs s := (0, s)
|}.
Next Obligation. intros; simpl; lia. Qed.
Next Obligation. intros; simpl; lia. Qed.

(** *** Globals and the monad of the writers *)

(** [PacketBase::sPacketCount] (one static [uint8_t] for all packet
    classes) and [extern int gADCPointsPerPacket]. *)
Record Globals := { sPacketCount : Z; gADCPointsPerPacket : Z }.

(** State (globals and the stream passed by reference) and failure
    (undefined behaviour). *)
Definition IO (S A : Type) : Type := Globals * S → option (A * (Globals * S)).

#[export] Instance IO_ret {S} : MRet (IO S) := λ A a st, Some (a, st).
#[export] Instance IO_bind {S} : MBind (IO S) := λ A B f m st,
  match m st with
  | Some (a, st') => f a st'
  | None => None
  end.

Section primitives.
Context {S : Type} `{Stream S}.

Definition get_points : IO S Z := λ st, Some (gADCPointsPerPacket st.1, st).

(** [sPacketCount++] on a [uint8_t]: yields the old value. *)
Definition post_incr_count : IO S Z := λ st,
  let c := sPacketCount st.1 in
  Some (c, ({| sPacketCount := (c + 1) `mod` 256;
               gADCPointsPerPacket := gADCPointsPerPacket st.1 |}, st.2)).

Definition stream_write1 (b : Z) : IO S Z := λ st,
  let '(n, s) := write1 b st.2 in Some (n, (st.1, s)).

Definition stream_writeN (bs : list Z) : IO S Z := λ st,
  let '(n, s) := writeN bs st.2 in Some (n, (st.1, s)).

Definition defined {A} (o : option A) : IO S A := λ st,
  match o with Some a => Some (a, st) | None => None end.
End primitives.

(** [static void Packet::ResetPacketCount()] *)
Definition ResetPacketCount (g : Globals) : Globals :=
  {| sPacketCount := 0; gADCPointsPerPacket := gADCPointsPerPacket g |}.

(** *** class Packet *)
Module Packet.
(** [int mPoint; int16_t mData[kPointsPerMediumSizePacket][kADCChannels];] *)
Record t := Build { mPoint : Z; mData : list (list Z) }.

Definition sHeader : list Z := [char "P"; 160 (* 0xA0 *)].

(** [Packet() : mPoint(0)]; [mData] is left as it is found. *)
Definition create (garbage : list (list Z)) : t :=
  {| mPoint := 0; mData := garbage |}.

(** The shape the array type gives [mData]; [mPoint] starts at 0 and is
    only ever incremented. *)
Definition wf (p : t) : Prop :=
  0 ≤ mPoint p
  ∧ Z.of_nat (length (mData p)) = kPointsPerMediumSizePacket
  ∧ Forall (λ row, Z.of_nat (length row) = kADCChannels) (mData p).

(** [mData[point][chan]] as an rvalue. *)
Definition sample_at (p : t) (point chan : Z) : option Z :=
  row ← arr_get (mData p) point; arr_get row chan.

(** [bool addSample(int chan, int16_t sample)]; [sample] is the [int16_t]
    the call has converted its argument to, a value from [-2 ^ 15] to
    [2 ^ 15 - 1]. *)
Definition addSample (chan sample : Z) (p : t) (g : Globals)
  : option (bool * t) :=
  if decide (mPoint p >= gADCPointsPerPacket g) then Some (false, p)
  else
    row ← arr_get (mData p) (mPoint p);
    row' ← arr_set row chan sample;
    data ← arr_set (mData p) (mPoint p) row';
    Some (true, {| mPoint := mPoint p; mData := data |}).

(** [void nextPoint()] *)
Definition nextPoint (p : t) : t :=
  {| mPoint := mPoint p + 1; mData := mData p |}.

(** Filling a packet the way its interface is meant to be used: for each
    point, [addSample(0, a)], [addSample(1, b)], [nextPoint()].  The result
    says whether all the calls of [addSample] returned [true]. *)
Fixpoint add_points (points : list (Z * Z)) (p : t) (g : Globals)
  : option (bool * t) :=
  match points with
  | [] => Some (true, p)
  | (a, b) :: points =>
      '(ok0, p0) ← addSample 0 a p g;
      '(ok1, p1) ← addSample 1 b p0 g;
      '(oks, p2) ← add_points points (nextPoint p1) g;
      Some (ok0 && ok1 && oks, p2)
  end.

(** The bytes of [mData], row after row. *)
Definition mData_bytes `{Target} (p : t) : list Z :=
  row ← mData p; sample ← row; object_bytes 2 sample.

(** [int write(Stream &stream) const] *)
Definition write `{Target} {S} `{Stream S} (p : t) : IO S Z :=
  n0 ← stream_writeN sHeader;
  points ← get_points;
  n1 ← stream_write1 (if decide (points = 1) then char "D" else char "M");
  count ← post_incr_count;
  n2 ← stream_write1 count;
  payload ← defined (read_object (mData_bytes p)
                       (to_size_t (2 * kADCChannels * points)));
  n3 ← stream_writeN payload;
  mret (n0 + n1 + n2 + n3).
End Packet.

(** *** class TimePacket *)
Module TimePacket.
(** [int32_t mData[1]; uint8_t mTimeRequestNumber;] *)
Record t := Build { mData : Z; mTimeRequestNumber : Z }.

Definition sHeaderAndPacketType : list Z := [char "P"; 160; char "N"].

(** [TimePacket(int32_t tick32us, uint8_t timeRequestNumber)]; the
    arguments are the values the call has converted to these types:
    [tick32us] from [-2 ^ 31] to [2 ^ 31 - 1], [timeRequestNumber] from 0
    to 255. *)
Definition create (tick32us timeRequestNumber : Z) : t :=
  {| mData := tick32us; mTimeRequestNumber := timeRequestNumber |}.

(** [int writeData(Stream &stream) const] *)
Definition writeData `{Target} {S} `{Stream S} (p : t) : IO S Z :=
  count ← post_incr_count;
  n0 ← stream_write1 count;
  n1 ← stream_write1 (mTimeRequestNumber p);
  n2 ← stream_writeN (object_bytes 4 (mData p));
  mret (n0 + n1 + n2).

(** [int write(Stream &stream) const] *)
Definition write `{Target} {S} `{Stream S} (p : t) : IO S Z :=
  n0 ← stream_writeN sHeaderAndPacketType;
  n1 ← writeData p;
  mret (n0 + n1).
End TimePacket.

(** *** class FirstSampleTimePacket *)
Module FirstSampleTimePacket.
(** [int32_t mData[1];] *)
Record t := Build { mData : Z }.

Definition sHeaderAndPacketType : list Z := [char "P"; 160; char "F"].

(** [FirstSampleTimePacket(int32_t tick32us)] *)
Definition create (tick32us : Z) : t := {| mData := tick32us |}.

(** [int write(Stream &stream) const] *)
Definition write `{Target} {S} `{Stream S} (p : t) : IO S Z :=
  n0 ← stream_writeN sHeaderAndPacketType;
  count ← post_incr_count;
  n1 ← stream_write1 count;
  n2 ← stream_writeN (object_bytes 4 (mData p));
  mret (n0 + n1 + n2).
End FirstSampleTimePacket.

(** *** class LatestUSBFrameTimePacket : protected TimePacket *)
Module LatestUSBFrameTimePacket.
(** The [TimePacket] subobject, then
    [uint16_t mFrameNumber; int32_t mFrameTimeus;] *)
Record t := Build {
    base : TimePacket.t;
    mFrameNumber : Z;
    mFrameTimeus : Z
  }.

Definition sHeaderAndPacketType : list Z := [char "P"; 160; char "L"].

(** [LatestUSBFrameTimePacket(int32_t tick32us, uint8_t timeRequestNumber,
    uint16_t frameNumber, int32_t latestFrameus)]; the arguments are values
    of these types. *)
Definition create (tick32us timeRequestNumber frameNumber latestFrameus : Z)
  : t :=
  {| base := TimePacket.create tick32us timeRequestNumber;
     mFrameNumber := frameNumber;
     mFrameTimeus := latestFrameus |}.

(** [int write(Stream &stream) const] *)
Definition write `{Target} {S} `{Stream S} (p : t) : IO S Z :=
  n0 ← stream_writeN sHeaderAndPacketType;
  n1 ← TimePacket.writeData (base p);
  n2 ← stream_writeN (object_bytes 2 (mFrameNumber p));
  n3 ← stream_writeN (object_bytes 4 (mFrameTimeus p));
  mret (n0 + n1 + n2 + n3).
End LatestUSBFrameTimePacket.

(** *** Sequences of writes *)

Inductive packet :=
  | Data (p : Packet.t)
  | Time (p : TimePacket.t)
  | FirstSampleTime (p : FirstSampleTimePacket.t)
  | LatestUSBFrameTime (p : LatestUSBFrameTimePacket.t).

(** Two packets are objects of the same class. *)
Definition same_class (p1 p2 : packet) : Prop :=
  match p1, p2 with
  | Data _, Data _ | Time _, Time _
  | FirstSampleTime _, FirstSampleTime _
  | LatestUSBFrameTime _, LatestUSBFrameTime _ => True
  | _, _ => False
  end.

Definition write `{Target} {S} `{Stream S} (p : packet) : IO S Z :=
  match p with
  | Data p => Packet.write p
  | Time p => TimePacket.write p
  | FirstSampleTime p => FirstSampleTimePacket.write p
  | LatestUSBFrameTime p => LatestUSBFrameTimePacket.write p
  end.

(** The [write]s of a sequence of packets to one stream; the results of the
    calls. *)
Fixpoint write_all `{Target} {S} `{Stream S} (ps : list packet)
  : IO S (list Z) :=
  match ps with
  | [] => mret []
  | p :: ps => n ← write p; ns ← write_all ps; mret (n :: ns)
  end.

(** What [write] needs of a packet: nothing for the time packets; for a data
    packet, that the configured number of points fits its storage. *)
Definition writable (g : Globals) (p : packet) : Prop :=
  match p with
  | Data p =>
      Packet.wf p ∧ 0 ≤ gADCPointsPerPacket g ≤ kPointsPerMediumSizePacket
  | _ => True
  end.

(** The bytes one [write] puts on an idle wire, and the globals after it. *)
Definition emit `{Target} (p : packet) (g : Globals)
  : option (list Z * Globals) :=
  '(_, (g', bytes)) ← write (S := Wire) p (g, []); Some (bytes, g').

(** The bytes of each of a sequence of [write]s, in order. *)
Fixpoint emit_all `{Target} (ps : list packet) (g : Globals)
  : option (list (list Z) * Globals) :=
  match ps with
  | [] => Some ([], g)
  | p :: ps =>
      '(bytes, g1) ← emit p g;
      '(rest, g2) ← emit_all ps g1;
      Some (bytes :: rest, g2)
  end.

(** The sequence byte of a transmitted packet: offset 3, after the magic
    and the type tag. *)
Definition sequence_byte (bytes : list Z) : option Z := bytes !! 3%nat.

Definition type_tag (bytes : list Z) : option Z := bytes !! 2%nat.
End ADIPackets.

(** * Properties of the ring buffer *)

Import RingBufferSized.

(** Unfolds the cursor arithmetic and leaves linear goals. *)
Ltac cursors :=
  unfold wf, GetSpace, GetCount, wrap in *; simpl in *;
  repeat case_decide; try lia.

Section arrays_facts.
Context {A : Type}.
Implicit Types (a dst src : list A) (i : Z).

Lemma arr_get_Some a i :
  0 ≤ i < Z.of_nat (length a) → ∃ x, arr_get a i = Some x ∧ a !! Z.to_nat i = Some x.
Proof.
  intros Hi. destruct (lookup_lt_is_Some_2 a (Z.to_nat i)) as [x Hx]; [lia|].
  exists x. unfold arr_get. case_decide; [done | lia].
Qed.

Lemma arr_set_Some a i v :
  0 ≤ i < Z.of_nat (length a) → arr_set a i v = Some (<[Z.to_nat i := v]> a).
Proof. intros Hi. unfold arr_set. case_decide; [done | lia]. Qed.

Lemma memcpy_Some dst doff src soff len :
  0 ≤ len → 0 ≤ doff → doff + len ≤ Z.of_nat (length dst) →
  0 ≤ soff → soff + len ≤ Z.of_nat (length src) →
  memcpy dst doff src soff len
  = Some (list_inserts (Z.to_nat doff)
            (take (Z.to_nat len) (drop (Z.to_nat soff) src)) dst).
Proof. intros. unfold memcpy. case_decide; [done | lia]. Qed.
End arrays_facts.

Section ring_facts.
Context {T : Type} (Size : Z).
Implicit Types (rb : t T) (val : T).

Lemma mod_wrap (i : Z) :
  0 ≤ i < 2 * Size → i `mod` Size = if decide (i >= Size) then i - Size else i.
Proof.
  intros Hi. case_decide.
  - symmetry. apply (Z.mod_unique_pos _ _ 1); lia.
  - apply Z.mod_small; lia.
Qed.

Lemma wrap_mod (i : Z) : 0 ≤ i < 2 * Size → wrap Size i = i `mod` Size.
Proof. intros Hi. by rewrite mod_wrap. Qed.

Lemma wf_create (garbage : list T) :
  1 ≤ Size → Z.of_nat (length garbage) = Size → wf Size (create garbage).
Proof. intros. cursors. Qed.

(** The subtraction in [GetCount] stays far from the limits of [int]. *)
Lemma GetCount_raw_range rb : wf Size rb → - Size < mIn rb - mOut rb < Size.
Proof. cursors. Qed.

Lemma GetCount_range rb : wf Size rb → 0 ≤ GetCount Size rb ≤ Size - 1.
Proof. cursors. Qed.

Lemma GetCount_mod rb :
  wf Size rb → GetCount Size rb = (mIn rb - mOut rb) `mod` Size.
Proof.
  intros Hwf. unfold GetCount. case_decide.
  - apply (Z.mod_unique_pos _ _ (-1)); cursors.
  - symmetry. apply Z.mod_small. cursors.
Qed.

Lemma GetSpace_range rb : wf Size rb → 0 ≤ GetSpace Size rb ≤ Size - 1.
Proof. cursors. Qed.

Lemma Push_ok val rb :
  wf Size rb → GetSpace Size rb ≠ 0 →
  Push Size val rb
  = Some (true, {| mBuffer := <[Z.to_nat (mIn rb) := val]> (mBuffer rb);
                   mIn := wrap Size (mIn rb + 1); mOut := mOut rb |}).
Proof.
  intros Hwf Hsp. unfold Push. case_decide; [|done].
  rewrite arr_set_Some; [done | cursors].
Qed.

Lemma Push_full val rb : GetSpace Size rb = 0 → Push Size val rb = Some (false, rb).
Proof. intros Hsp. unfold Push. case_decide; [lia | done]. Qed.

Lemma Push_wf val rb ok rb' :
  wf Size rb → Push Size val rb = Some (ok, rb') → wf Size rb'.
Proof.
  intros Hwf. destruct (decide (GetSpace Size rb = 0)) as [Hsp|Hsp].
  - rewrite Push_full by done. by intros [= <- <-].
  - rewrite Push_ok by done. intros [= <- <-].
    unfold wf in *; simpl. rewrite length_insert. cursors.
Qed.
End ring_facts.

Section ring_bulk.
Context {T : Type} (Size : Z).
Implicit Types (rb : t T) (val : list T).

Lemma PushN_eq val n rb :
  wf Size rb → 0 ≤ n ≤ Z.of_nat (length val) →
  let k := Z.min n (GetSpace Size rb) in
  PushN Size val n rb
  = Some (k, {| mBuffer := copy_two_ranges Size val k rb;
                mIn := (mIn rb + k) `mod` Size; mOut := mOut rb |}).
Proof.
  intros Hwf Hn k.
  pose proof (GetSpace_range Size rb Hwf) as Hsp.
  assert (Hlen : Z.of_nat (length (mBuffer rb)) = Size) by apply Hwf.
  assert (HmIn : 0 ≤ mIn rb < Size) by apply Hwf.
  unfold PushN.
  assert (Hpair : (if decide (n > GetSpace Size rb)
                   then (GetSpace Size rb, GetSpace Size rb) else (n, n))
                  = (k, k)).
  { subst k. case_decide; f_equal; lia. }
  rewrite Hpair. clear Hpair.
  assert (Hk : 0 ≤ k ≤ Size - 1 ∧ k ≤ Z.of_nat (length val)) by (subst k; lia).
  clearbody k.
  unfold copy_two_ranges.
  destruct (decide (k ≠ 0)) as [Hk0|Hk0]; cycle 1.
  { assert (k = 0) as -> by lia.
    rewrite Z.add_0_r, Z.mod_small by lia.
    replace (Z.min 0 (Size - mIn rb)) with 0 by lia. simpl.
    by destruct rb. }
  set (len1 := if decide (Size - mIn rb > k) then k else Size - mIn rb).
  assert (Hlen1 : len1 = Z.min k (Size - mIn rb)) by (subst len1; case_decide; lia).
  rewrite <- Hlen1. clearbody len1.
  rewrite memcpy_Some by lia. simpl. rewrite drop_0.
  destruct (decide (k - len1 ≠ 0)) as [Hr|Hr].
  - rewrite memcpy_Some by (rewrite ?length_inserts; lia). simpl.
    do 3 f_equal. rewrite mod_wrap by lia. unfold wrap. repeat case_decide; lia.
  - replace (k - len1) with 0 by lia. simpl.
    do 3 f_equal. rewrite mod_wrap by lia. unfold wrap. repeat case_decide; lia.
Qed.
End ring_bulk.

Section ring_slots.
Context {T : Type} (Size : Z).
Implicit Types (rb : t T) (val : list T).

Lemma copy_two_ranges_length val k rb :
  length (copy_two_ranges Size val k rb) = length (mBuffer rb).
Proof. unfold copy_two_ranges. by rewrite !length_inserts. Qed.

(** The [i]-th element copied lands [i] slots after the write cursor. *)
Lemma copy_two_ranges_written val k rb i :
  wf Size rb → 0 ≤ k ≤ GetSpace Size rb → k ≤ Z.of_nat (length val) →
  0 ≤ i < k →
  arr_get (copy_two_ranges Size val k rb) ((mIn rb + i) `mod` Size)
  = arr_get val i.
Proof.
  intros Hwf Hk Hval Hi.
  pose proof (GetSpace_range Size rb Hwf) as Hsp.
  destruct Hwf as (Hlen & HmIn & _).
  rewrite mod_wrap by lia. unfold arr_get, copy_two_ranges.
  set (len1 := Z.min k (Size - mIn rb)).
  repeat case_decide; try lia.
  - (* wrapped: second range *)
    rewrite list_lookup_inserts
      by (rewrite ?length_inserts, ?length_take, ?length_drop; lia).
    rewrite lookup_take_lt, lookup_drop by lia. f_equal. lia.
  - (* first range *)
    rewrite list_lookup_inserts_ge by (rewrite length_take, length_drop; lia).
    rewrite list_lookup_inserts by (rewrite ?length_take; lia).
    rewrite lookup_take_lt by lia. f_equal. lia.
Qed.

(** Slots [k] or more after the write cursor are not touched. *)
Lemma copy_two_ranges_frame val k rb i :
  wf Size rb → 0 ≤ k ≤ GetSpace Size rb → k ≤ Z.of_nat (length val) →
  k ≤ i < Size →
  arr_get (copy_two_ranges Size val k rb) ((mIn rb + i) `mod` Size)
  = arr_get (mBuffer rb) ((mIn rb + i) `mod` Size).
Proof.
  intros Hwf Hk Hval Hi.
  pose proof (GetSpace_range Size rb Hwf) as Hsp.
  destruct Hwf as (Hlen & HmIn & _).
  rewrite mod_wrap by lia. unfold arr_get, copy_two_ranges.
  set (len1 := Z.min k (Size - mIn rb)).
  repeat case_decide; try lia.
  - rewrite list_lookup_inserts_ge by (rewrite length_take, length_drop; lia).
    by rewrite list_lookup_inserts_lt by lia.
  - rewrite list_lookup_inserts_ge by (rewrite length_take, length_drop; lia).
    by rewrite list_lookup_inserts_ge by (rewrite length_take; lia).
Qed.
End ring_slots.

Section omap_facts.
Context {A B : Type} (f : A → option B).

Lemma omap_lookup_defined (l : list A) (i : nat) :
  (∀ x, x ∈ l → is_Some (f x)) → omap f l !! i = l !! i ≫= f.
Proof.
  revert i. induction l as [|x l IH]; intros i Hf; [done|].
  destruct (Hf x) as [y Hy]; [by left|].
  assert (Hcons : omap f (x :: l) = y :: omap f l) by (simpl; by rewrite Hy).
  rewrite Hcons. destruct i as [|i]; simpl; [done|].
  apply IH. intros z Hz. apply Hf. by right.
Qed.

Lemma omap_length_defined (l : list A) :
  (∀ x, x ∈ l → is_Some (f x)) → length (omap f l) = length l.
Proof.
  induction l as [|x l IH]; intros Hf; [done|].
  destruct (Hf x) as [y Hy]; [by left|].
  simpl. rewrite Hy. simpl. f_equal. apply IH.
  intros z Hz. apply Hf. by right.
Qed.
End omap_facts.

Section ring_contents.
Context {T : Type} (Size : Z).
Implicit Types (rb : t T) (val : list T).

Lemma contents_defined rb (i : Z) :
  wf Size rb → i ∈ seqZ 0 (GetCount Size rb) →
  is_Some (arr_get (mBuffer rb) ((mOut rb + i) `mod` Size)).
Proof.
  intros Hwf _.
  destruct (arr_get_Some (mBuffer rb) ((mOut rb + i) `mod` Size)) as (x & -> & _);
    [|done].
  destruct Hwf as (-> & Hin & _). apply Z.mod_pos_bound. lia.
Qed.

Lemma contents_lookup rb (i : nat) :
  wf Size rb →
  contents Size rb !! i
  = if decide (Z.of_nat i < GetCount Size rb)
    then arr_get (mBuffer rb) ((mOut rb + Z.of_nat i) `mod` Size) else None.
Proof.
  intros Hwf. unfold contents.
  rewrite omap_lookup_defined by (intros; by apply contents_defined).
  case_decide.
  - by rewrite lookup_seqZ_lt by done.
  - by rewrite lookup_seqZ_ge by lia.
Qed.

Lemma contents_length rb :
  wf Size rb → Z.of_nat (length (contents Size rb)) = GetCount Size rb.
Proof.
  intros Hwf. unfold contents.
  rewrite omap_length_defined by (intros; by apply contents_defined).
  rewrite length_seqZ. pose proof (GetCount_range Size rb Hwf). lia.
Qed.

(** The read cursor seen from the write cursor. *)
Lemma cursor_shift rb (i : Z) :
  wf Size rb →
  (mOut rb + i) `mod` Size = (mIn rb + (i - GetCount Size rb)) `mod` Size.
Proof.
  intros Hwf. unfold GetCount. case_decide.
  - replace (mOut rb + i) with (mIn rb + (i - (mIn rb - mOut rb + Size)) + 1 * Size)
      by lia.
    by rewrite Z_mod_plus_full.
  - f_equal. lia.
Qed.

Lemma wf_after_copy val k rb :
  wf Size rb →
  wf Size {| mBuffer := copy_two_ranges Size val k rb;
             mIn := (mIn rb + k) `mod` Size; mOut := mOut rb |}.
Proof.
  intros (Hlen & HmIn & HmOut). unfold wf. simpl.
  rewrite copy_two_ranges_length.
  split; [done|]. split; [apply Z.mod_pos_bound; lia | done].
Qed.

Lemma GetCount_after_copy val k rb :
  wf Size rb → 0 ≤ k ≤ GetSpace Size rb →
  GetCount Size {| mBuffer := copy_two_ranges Size val k rb;
                   mIn := (mIn rb + k) `mod` Size; mOut := mOut rb |}
  = GetCount Size rb + k.
Proof.
  intros Hwf Hk. pose proof (GetSpace_range Size rb Hwf).
  unfold GetCount at 1. simpl. rewrite mod_wrap by cursors. cursors.
Qed.

Lemma contents_after_copy val k rb :
  wf Size rb → 0 ≤ k ≤ GetSpace Size rb → k ≤ Z.of_nat (length val) →
  contents Size {| mBuffer := copy_two_ranges Size val k rb;
                   mIn := (mIn rb + k) `mod` Size; mOut := mOut rb |}
  = contents Size rb ++ take (Z.to_nat k) val.
Proof.
  intros Hwf Hk Hval.
  pose proof (GetCount_range Size rb Hwf) as Hc.
  pose proof (contents_length rb Hwf) as Hcl.
  assert (HS : GetSpace Size rb = Size - 1 - GetCount Size rb) by done.
  apply list_eq. intros i.
  rewrite contents_lookup by by apply wf_after_copy.
  rewrite GetCount_after_copy by done. simpl.
  rewrite cursor_shift by done.
  destruct (decide (Z.of_nat i < GetCount Size rb)) as [Hi|Hi].
  - rewrite lookup_app_l by lia. rewrite contents_lookup by done.
    rewrite decide_True by lia. rewrite decide_True by lia.
    rewrite (cursor_shift rb) by done.
    rewrite <- (Z_mod_plus_full _ 1 Size).
    replace (mIn rb + (Z.of_nat i - GetCount Size rb) + 1 * Size)
      with (mIn rb + (Z.of_nat i - GetCount Size rb + Size)) by lia.
    apply copy_two_ranges_frame; try done. lia.
  - rewrite lookup_app_r by lia.
    case_decide.
    + rewrite copy_two_ranges_written by (try done; lia).
      unfold arr_get. rewrite decide_True by lia.
      rewrite lookup_take_lt by lia. f_equal. lia.
    + symmetry. apply lookup_ge_None_2. rewrite length_take. lia.
Qed.
End ring_contents.

Section ring_steps.
Context {T : Type} (Size : Z).
Implicit Types (rb : t T) (val : T).

Lemma Push_as_copy val rb :
  wf Size rb → GetSpace Size rb ≠ 0 →
  Push Size val rb
  = Some (true, {| mBuffer := copy_two_ranges Size [val] 1 rb;
                   mIn := (mIn rb + 1) `mod` Size; mOut := mOut rb |}).
Proof.
  intros Hwf Hsp. rewrite Push_ok by done.
  destruct Hwf as (Hlen & HmIn & HmOut).
  rewrite wrap_mod by lia. unfold copy_two_ranges.
  replace (Z.min 1 (Size - mIn rb)) with 1 by lia. done.
Qed.

Lemma wf_advance_out rb :
  wf Size rb →
  wf Size {| mBuffer := mBuffer rb; mIn := mIn rb; mOut := wrap Size (mOut rb + 1) |}.
Proof. cursors. Qed.

Lemma GetNext_ok rb :
  wf Size rb →
  ∃ x, mBuffer rb !! Z.to_nat (mOut rb) = Some x
       ∧ GetNext Size rb
         = Some (x, {| mBuffer := mBuffer rb; mIn := mIn rb;
                       mOut := wrap Size (mOut rb + 1) |}).
Proof.
  intros (Hlen & HmIn & HmOut).
  destruct (arr_get_Some (mBuffer rb) (mOut rb)) as (x & Hx & Hl); [lia|].
  exists x. split; [done|]. unfold GetNext. by rewrite Hx.
Qed.

Lemma GetNextTo_ok val rb :
  wf Size rb → GetCount Size rb ≠ 0 →
  ∃ x, mBuffer rb !! Z.to_nat (mOut rb) = Some x
       ∧ GetNextTo Size val rb
         = Some (true, x, {| mBuffer := mBuffer rb; mIn := mIn rb;
                             mOut := wrap Size (mOut rb + 1) |}).
Proof.
  intros (Hlen & HmIn & HmOut) Hc.
  destruct (arr_get_Some (mBuffer rb) (mOut rb)) as (x & Hx & Hl); [lia|].
  exists x. split; [done|]. unfold GetNextTo.
  rewrite decide_True by done. by rewrite Hx.
Qed.

Lemma GetNextTo_empty val rb :
  GetCount Size rb = 0 → GetNextTo Size val rb = Some (false, val, rb).
Proof. intros Hc. unfold GetNextTo. by rewrite decide_False by lia. Qed.

Lemma NextOut_empty rb : GetCount Size rb = 0 → NextOut Size rb = Some (false, rb).
Proof. intros Hc. unfold NextOut. by rewrite decide_False by lia. Qed.

Lemma GetTo_empty val rb : GetCount Size rb = 0 → GetTo Size val rb = Some (false, val).
Proof. intros Hc. unfold GetTo. by rewrite decide_False by lia. Qed.

Lemma step_wf (o : op T) rb :
  wf Size rb → ∃ rb', step Size o rb = Some rb' ∧ wf Size rb'.
Proof.
  intros Hwf. destruct o as [val|vals|val| | |val| |]; simpl.
  - destruct (decide (GetSpace Size rb = 0)) as [Hsp|Hsp].
    + rewrite Push_full by done. by exists rb.
    + rewrite Push_as_copy by done. eexists. split; [done|].
      by apply wf_after_copy.
  - rewrite PushN_eq by (try done; lia). eexists. split; [done|].
    by apply wf_after_copy.
  - exists rb. split; [|done]. unfold GetTo. case_decide; [|done].
    destruct (arr_get_Some (mBuffer rb) (mOut rb)) as (x & -> & _); [cursors|done].
  - exists rb. split; [|done]. unfold Get.
    destruct (arr_get_Some (mBuffer rb) (mOut rb)) as (x & -> & _); [cursors|done].
  - destruct (GetNext_ok rb Hwf) as (x & _ & ->). eexists. split; [done|].
    by apply wf_advance_out.
  - destruct (decide (GetCount Size rb = 0)) as [Hc|Hc].
    + rewrite GetNextTo_empty by done. by exists rb.
    + destruct (GetNextTo_ok val rb Hwf Hc) as (x & _ & ->). eexists.
      split; [done|]. by apply wf_advance_out.
  - unfold NextOut. case_decide; eexists; (split; [done|]);
      [by apply wf_advance_out | done].
  - eexists. split; [done|]. cursors.
Qed.

Lemma run_wf (ops : list (op T)) rb :
  wf Size rb → ∃ rb', run Size ops rb = Some rb' ∧ wf Size rb'.
Proof.
  revert rb. induction ops as [|o ops IH]; intros rb Hwf; simpl.
  - by exists rb.
  - destruct (step_wf o rb Hwf) as (rb1 & -> & Hwf1). simpl. by apply IH.
Qed.

Lemma push_all_fits (vals : list T) rb :
  wf Size rb → Z.of_nat (length vals) ≤ GetSpace Size rb →
  ∃ rb', push_all Size vals rb = Some (replicate (length vals) true, rb')
         ∧ wf Size rb'
         ∧ GetCount Size rb' = GetCount Size rb + Z.of_nat (length vals)
         ∧ contents Size rb' = contents Size rb ++ vals.
Proof.
  revert rb. induction vals as [|v vals IH]; intros rb Hwf Hfit; simpl.
  - exists rb. rewrite app_nil_r. split_and!; try done. lia.
  - simpl in Hfit. rewrite Push_as_copy by (try done; lia). simpl.
    set (rb1 := {| mBuffer := copy_two_ranges Size [v] 1 rb;
                   mIn := (mIn rb + 1) `mod` Size; mOut := mOut rb |}).
    assert (Hwf1 : wf Size rb1) by by apply wf_after_copy.
    assert (Hc1 : GetCount Size rb1 = GetCount Size rb + 1)
      by (apply GetCount_after_copy; [done | lia]).
    assert (Hcs1 : contents Size rb1 = contents Size rb ++ [v]).
    { unfold rb1. rewrite contents_after_copy; [done | done | lia | simpl; lia]. }
    destruct (IH rb1 Hwf1) as (rb' & -> & Hwf' & Hc' & Hcs').
    { unfold GetSpace in *. lia. }
    exists rb'. simpl. split_and!; try done; [lia|].
    by rewrite Hcs', Hcs1, <- app_assoc.
Qed.

(** A successful checked pop removes the oldest unread element. *)
Lemma contents_pop val rb :
  wf Size rb → GetCount Size rb ≠ 0 →
  ∃ x rb', GetNextTo Size val rb = Some (true, x, rb')
           ∧ wf Size rb'
           ∧ contents Size rb = x :: contents Size rb'.
Proof.
  intros Hwf Hc. destruct (GetNextTo_ok val rb Hwf Hc) as (x & Hx & ->).
  eexists _, _. split; [done|].
  pose proof (wf_advance_out rb Hwf) as Hwf'. split; [done|].
  pose proof (GetCount_range Size rb Hwf) as Hr.
  apply list_eq. intros [|i]; simpl.
  - rewrite contents_lookup by done. rewrite decide_True by lia.
    rewrite Z.add_0_r, Z.mod_small by cursors.
    unfold arr_get. rewrite decide_True by cursors. done.
  - rewrite !contents_lookup by done. simpl.
    assert (Hc' : GetCount Size
              {| mBuffer := mBuffer rb; mIn := mIn rb;
                 mOut := wrap Size (mOut rb + 1) |} = GetCount Size rb - 1)
      by cursors.
    rewrite Hc'.
    assert (Hidx : (wrap Size (mOut rb + 1) + Z.of_nat i) `mod` Size
                   = (mOut rb + Z.of_nat (S i)) `mod` Size).
    { unfold wrap. case_decide.
      - rewrite <- (Z_mod_plus_full _ 1 Size). f_equal. lia.
      - f_equal. lia. }
    rewrite Hidx. repeat case_decide; try done; lia.
Qed.
End ring_steps.

(** * The ring buffer: specification *)

(** C1. For a capacity [Size] of at least two, whatever sequence of calls
    of the public methods (pushes, bulk pushes, peeks, checked and unchecked
    pops, skips, clears) is made on a freshly constructed buffer, every call
    is defined and afterwards [0 <= GetCount() <= Size - 1] and
    [GetCount() + GetSpace() = Size - 1]; [GetCount()] is the difference of
    the two cursors modulo [Size]. *)
Theorem count_space_invariant {T : Type} (Size : Z) (garbage : list T) (ops : list (op T)) :
  2 ≤ Size → Z.of_nat (length garbage) = Size →
  ∃ rb, run Size ops (create garbage) = Some rb
        ∧ 0 ≤ GetCount Size rb ≤ Size - 1
        ∧ GetCount Size rb + GetSpace Size rb = Size - 1
        ∧ GetCount Size rb = (mIn rb - mOut rb) `mod` Size.
Proof.
  intros HSize Hlen.
  destruct (run_wf Size ops (create garbage)) as (rb & Hrun & Hwf).
  { apply wf_create; [lia | done]. }
  exists rb. split; [done|]. split; [by apply GetCount_range|].
  split; [unfold GetSpace; lia | by apply GetCount_mod].
Qed.

Lemma count_space_invariant_witness :
  2 ≤ 3 ∧ Z.of_nat (length [10; 20; 30]) = 3
  ∧ ∃ rb : t Z,
      run 3 [OpGetNext; OpPush 1; OpPushN [2; 3; 4]; OpNextOut; OpClear; OpPush 5]
        (create [10; 20; 30]) = Some rb
      ∧ 0 ≤ GetCount 3 rb ≤ 3 - 1
      ∧ GetCount 3 rb + GetSpace 3 rb = 3 - 1
      ∧ GetCount 3 rb = (mIn rb - mOut rb) `mod` 3.
Proof.
  split; [lia|]. split; [reflexivity|].
  apply (count_space_invariant 3 [10; 20; 30]); [lia | reflexivity].
Defined.

(** C2. On a buffer with [GetSpace() > 0], [Push(item)] stores [item] in the
    slot at the write cursor, moves the write cursor one slot on with
    wrap-around, leaves the read cursor alone and returns [true]; with
    [GetSpace() = 0] it returns [false] and the buffer is the same.  Hence
    [Size - 1] pushes into an empty buffer all succeed and one more push
    fails and changes nothing. *)
Theorem Push_spec {T : Type} (Size : Z) (rb : t T) (item : T) :
  wf Size rb →
  (GetSpace Size rb > 0 →
   ∃ rb', Push Size item rb = Some (true, rb')
          ∧ mBuffer rb' = <[Z.to_nat (mIn rb) := item]> (mBuffer rb)
          ∧ arr_get (mBuffer rb') (mIn rb) = Some item
          ∧ mIn rb' = (mIn rb + 1) `mod` Size
          ∧ mOut rb' = mOut rb)
  ∧ (GetSpace Size rb = 0 → Push Size item rb = Some (false, rb))
  ∧ (∀ (items : list T) (extra : T),
       GetCount Size rb = 0 → Z.of_nat (length items) = Size - 1 →
       ∃ rb', push_all Size items rb = Some (replicate (length items) true, rb')
              ∧ contents Size rb' = items
              ∧ Push Size extra rb' = Some (false, rb')).
Proof.
  intros Hwf. split_and!.
  - intros Hsp. rewrite Push_ok by (try done; lia). eexists. split; [done|].
    simpl. destruct Hwf as (Hlen & HmIn & HmOut). split_and!; try done.
    + unfold arr_get. rewrite decide_True by lia.
      apply list_lookup_insert_eq. lia.
    + apply wrap_mod. lia.
  - apply Push_full.
  - intros items extra Hempty Hlen.
    destruct (push_all_fits Size items rb Hwf) as (rb' & Hpush & Hwf' & Hc & Hcs).
    { unfold GetSpace. lia. }
    exists rb'. split; [done|]. split.
    + rewrite Hcs. assert (Hnil : contents Size rb = []).
      { apply length_zero_iff_nil. pose proof (contents_length Size rb Hwf). lia. }
      by rewrite Hnil.
    + apply Push_full. unfold GetSpace. lia.
Qed.

Lemma Push_spec_witness :
  wf 3 (Build [10; 20; 30] 2 2)
  ∧ ∃ rb' : t Z, push_all 3 [1; 2] (Build [10; 20; 30] 2 2) = Some ([true; true], rb')
           ∧ contents 3 rb' = [1; 2]
           ∧ Push 3 7 rb' = Some (false, rb').
Proof.
  assert (Hwf : wf 3 (Build [10; 20; 30] 2 2)) by (unfold wf; simpl; lia).
  split; [exact Hwf|].
  destruct (Push_spec 3 (Build [10; 20; 30] 2 2) 0 Hwf) as (_ & _ & Hall).
  apply (Hall [1; 2] 7); reflexivity.
Defined.

(** C3. On any buffer, the bulk [Push(val, n)] of an array of at least [n]
    items returns [min(n, GetSpace())]; it copies that many items, in array
    order, into the slots that follow the write cursor (in two ranges at
    most: up to the end of the array, then from its start), touches no other
    slot nor the read cursor, and [GetCount()] grows by exactly the number
    returned.  With [GetSpace() = s < n] the result is [s]. *)
Theorem PushN_spec {T : Type} (Size : Z) (val : list T) (n : Z) (rb : t T) :
  wf Size rb → 0 ≤ n ≤ Z.of_nat (length val) →
  let k := Z.min n (GetSpace Size rb) in
  ∃ rb', PushN Size val n rb = Some (k, rb')
         ∧ wf Size rb'
         ∧ mBuffer rb' = copy_two_ranges Size val k rb
         ∧ mIn rb' = (mIn rb + k) `mod` Size
         ∧ mOut rb' = mOut rb
         ∧ (∀ i, 0 ≤ i < k →
              arr_get (mBuffer rb') ((mIn rb + i) `mod` Size) = arr_get val i)
         ∧ (∀ i, k ≤ i < Size →
              arr_get (mBuffer rb') ((mIn rb + i) `mod` Size)
              = arr_get (mBuffer rb) ((mIn rb + i) `mod` Size))
         ∧ contents Size rb' = contents Size rb ++ take (Z.to_nat k) val
         ∧ GetCount Size rb' = GetCount Size rb + k
         ∧ (GetSpace Size rb < n → k = GetSpace Size rb).
Proof.
  intros Hwf Hn k. pose proof (GetSpace_range Size rb Hwf) as Hsp.
  assert (Hk : 0 ≤ k ≤ GetSpace Size rb) by (subst k; lia).
  assert (Hkv : k ≤ Z.of_nat (length val)) by (subst k; lia).
  rewrite PushN_eq by done. fold k. eexists. split; [done|]. simpl.
  split; [by apply wf_after_copy|]. split_and!; try done.
  - intros i Hi. by apply copy_two_ranges_written.
  - intros i Hi. by apply copy_two_ranges_frame.
  - by apply contents_after_copy.
  - by apply GetCount_after_copy.
  - subst k. lia.
Qed.

Lemma PushN_spec_witness :
  wf 4 (Build [0; 0; 0; 0] 3 3) ∧ 0 ≤ 5 ≤ Z.of_nat (length [7; 8; 9; 10; 11])
  ∧ ∃ rb' : t Z, PushN 4 [7; 8; 9; 10; 11] 5 (Build [0; 0; 0; 0] 3 3) = Some (3, rb')
           ∧ mBuffer rb' = [8; 9; 0; 7]
           ∧ contents 4 rb' = [7; 8; 9].
Proof.
  assert (Hwf : wf 4 (Build [0; 0; 0; 0] 3 3)) by (unfold wf; simpl; lia).
  assert (Hn : 0 ≤ 5 ≤ Z.of_nat (length [7; 8; 9; 10; 11])) by (simpl; lia).
  split; [exact Hwf|]. split; [exact Hn|].
  destruct (PushN_spec 4 [7; 8; 9; 10; 11] 5 (Build [0; 0; 0; 0] 3 3) Hwf Hn)
    as (rb' & Hpush & _ & Hbuf & _ & _ & _ & _ & Hcs & _).
  exists rb'. split; [exact Hpush|]. split; [exact Hbuf|]. exact Hcs.
Defined.

(** C4. First in, first out, also across the wrap-around.  On an empty
    buffer of capacity at least two, [Push(x)] followed by a pop (checked or
    not) gives back exactly [x] and leaves [GetCount() = 0].  With capacity
    four: after [Push] of [a], [b], [c] a pop returns [a]; [d] is then
    pushed into the last slot, the write cursor wraps to slot 0, and three
    more pops return [b], [c], [d] in this order. *)
Theorem fifo_order {T : Type} (Size : Z) (rb : t T) (x cell : T) :
  2 ≤ Size → wf Size rb → GetCount Size rb = 0 →
  (∃ rb1 rb2,
     Push Size x rb = Some (true, rb1)
     ∧ GetNextTo Size cell rb1 = Some (true, x, rb2)
     ∧ GetNext Size rb1 = Some (x, rb2)
     ∧ GetCount Size rb2 = 0)
  ∧ (∀ (a b c d : T) (garbage : list T),
       length garbage = 4%nat →
       ∃ rb1 rb2 rb3 rb4,
         push_all 4 [a; b; c] (create garbage) = Some ([true; true; true], rb1)
         ∧ GetNext 4 rb1 = Some (a, rb2)
         ∧ Push 4 d rb2 = Some (true, rb3)
         ∧ mIn rb3 = 0
         ∧ pop_all 4 3 cell rb3 = Some ([(true, b); (true, c); (true, d)], rb4)
         ∧ GetCount 4 rb4 = 0).
Proof.
  intros HSize Hwf Hempty. split.
  - rewrite Push_ok by (try done; unfold GetSpace; lia).
    set (rb1 := {| mBuffer := <[Z.to_nat (mIn rb) := x]> (mBuffer rb);
                   mIn := wrap Size (mIn rb + 1); mOut := mOut rb |}).
    assert (Heq : mOut rb = mIn rb) by cursors.
    assert (Hwf1 : wf Size rb1).
    { unfold wf, rb1 in *. simpl. rewrite length_insert. cursors. }
    assert (Hc1 : GetCount Size rb1 ≠ 0) by (subst rb1; cursors).
    destruct (GetNextTo_ok Size cell rb1 Hwf1 Hc1) as (y & Hy & Hpop).
    destruct (GetNext_ok Size rb1 Hwf1) as (y' & Hy' & Hpop').
    assert (y = x) as ->.
    { subst rb1. simpl in Hy. rewrite Heq in Hy.
      rewrite list_lookup_insert_eq in Hy by (destruct Hwf; lia). congruence. }
    assert (y' = x) as -> by congruence.
    eexists _, _. split_and!; [done | exact Hpop | exact Hpop' |].
    subst rb1. cursors.
  - intros a b c d garbage Hlen.
    destruct garbage as [|g0 [|g1 [|g2 [|g3 [|]]]]]; try discriminate Hlen.
    vm_compute. eauto 10.
Qed.

Lemma fifo_order_witness :
  2 ≤ 4 ∧ wf 4 (Build [10; 20; 30; 40] 3 3)
  ∧ GetCount 4 (Build [10; 20; 30; 40] 3 3) = 0
  ∧ ∃ rb1 rb2 : t Z,
      Push 4 5 (Build [10; 20; 30; 40] 3 3) = Some (true, rb1)
      ∧ GetNextTo 4 0 rb1 = Some (true, 5, rb2)
      ∧ GetNext 4 rb1 = Some (5, rb2)
      ∧ GetCount 4 rb2 = 0.
Proof.
  assert (Hwf : wf 4 (Build [10; 20; 30; 40] 3 3)) by (unfold wf; simpl; lia).
  split; [lia|]. split; [exact Hwf|]. split; [reflexivity|].
  apply (fifo_order 4 (Build [10; 20; 30; 40] 3 3) 5 0); [lia | exact Hwf | reflexivity].
Defined.

(** C5. [Clear()] makes the read cursor equal to the write cursor, so that
    [GetCount()] is 0 afterwards, whatever the state and the capacity, and
    changes nothing else: the write cursor and every slot of the backing
    array are as before. *)
Theorem Clear_spec {T : Type} (Size : Z) (rb : t T) :
  mOut (Clear rb) = mIn rb
  ∧ mIn (Clear rb) = mIn rb
  ∧ mBuffer (Clear rb) = mBuffer rb
  ∧ (∀ i, arr_get (mBuffer (Clear rb)) i = arr_get (mBuffer rb) i)
  ∧ GetCount Size (Clear rb) = 0.
Proof. split_and!; try done. cursors. Qed.

(** C10. On an empty buffer the unchecked [GetNext()] returns the stale
    element under the read cursor and still moves the read cursor one slot
    on, after which [GetCount()] is [Size - 1]; with a capacity of two or
    more the cursor has really moved and no space is left.  The checked
    [GetNext(T *val)], [NextOut()] and [Get(T *val)] return [false] on the empty
    buffer and change neither the buffer nor the cell. *)
Theorem unchecked_pop_on_empty {T : Type} (Size : Z) (rb : t T) (cell : T) :
  wf Size rb → GetCount Size rb = 0 →
  (∃ stale rb',
     arr_get (mBuffer rb) (mOut rb) = Some stale
     ∧ GetNext Size rb = Some (stale, rb')
     ∧ mOut rb' = (mOut rb + 1) `mod` Size
     ∧ mIn rb' = mIn rb ∧ mBuffer rb' = mBuffer rb
     ∧ GetCount Size rb' = Size - 1
     ∧ (2 ≤ Size → mOut rb' ≠ mOut rb ∧ GetSpace Size rb' = 0))
  ∧ GetNextTo Size cell rb = Some (false, cell, rb)
  ∧ NextOut Size rb = Some (false, rb)
  ∧ GetTo Size cell rb = Some (false, cell).
Proof.
  intros Hwf Hempty. split_and!.
  - destruct (GetNext_ok Size rb Hwf) as (x & Hx & Hpop).
    eexists _, _. split_and!; [| exact Hpop | ..]; simpl; try done.
    + unfold arr_get. rewrite decide_True by cursors. done.
    + apply wrap_mod. cursors.
    + cursors.
    + intros HSize. cursors.
  - by apply GetNextTo_empty.
  - by apply NextOut_empty.
  - by apply GetTo_empty.
Qed.

Lemma unchecked_pop_on_empty_witness :
  wf 4 (Build [10; 20; 30; 40] 1 1) ∧ GetCount 4 (Build [10; 20; 30; 40] 1 1) = 0
  ∧ GetNext 4 (Build [10; 20; 30; 40] 1 1) = Some (20, Build [10; 20; 30; 40] 1 2)
  ∧ GetCount 4 (Build [10; 20; 30; 40] 1 2) = 3
  ∧ GetNextTo 4 0 (Build [10; 20; 30; 40] 1 1)
    = Some (false, 0, Build [10; 20; 30; 40] 1 1).
Proof.
  assert (Hwf : wf 4 (Build [10; 20; 30; 40] 1 1)) by (unfold wf; simpl; lia).
  split; [exact Hwf|]. split; [reflexivity|].
  destruct (unchecked_pop_on_empty 4 (Build [10; 20; 30; 40] 1 1) 0 Hwf eq_refl)
    as (_ & Hchecked & _).
  split; [reflexivity|]. split; [reflexivity|]. exact Hchecked.
Defined.

(** * Properties of the packets *)

Import ADIPackets.

Section bind_facts.
Context {A B : Type} (f : A → list B) (c : nat).

Lemma bind_length_const (l : list A) :
  Forall (λ x, length (f x) = c) l → length (l ≫= f) = (length l * c)%nat.
Proof.
  induction 1 as [|x l Hx _ IH]; [done|].
  rewrite bind_cons, length_app, IH, Hx. simpl. lia.
Qed.

Lemma take_bind_const (l : list A) (m : nat) :
  Forall (λ x, length (f x) = c) l →
  take (m * c) (l ≫= f) = take m l ≫= f.
Proof.
  intros Hl. revert m. induction Hl as [|x l Hx _ IH]; intros m.
  - rewrite take_nil. change ([] ≫= f) with (@nil B). by rewrite take_nil.
  - destruct m as [|m]; [done|].
    rewrite bind_cons. simpl take at 2. rewrite bind_cons.
    replace (S m * c)%nat with (length (f x) + m * c)%nat by lia.
    by rewrite take_app_add, IH.
Qed.

(** With chunks of [c] elements each, the chunk of the [i]-th element starts
    at offset [i * c]. *)
Lemma bind_chunk (l : list A) (i j m : nat) (x : A) :
  Forall (λ x, length (f x) = c) l → l !! i = Some x → (j + m ≤ c)%nat →
  take m (drop (i * c + j) (l ≫= f)) = take m (drop j (f x)).
Proof.
  intros Hl. revert i. induction Hl as [|y l Hy _ IH]; intros i Hi Hjm.
  - by destruct i.
  - rewrite bind_cons. destruct i as [|i]; simpl in Hi.
    + injection Hi as ->. simpl.
      rewrite drop_app_le by lia. apply take_app_le. rewrite length_drop. lia.
    + replace (S i * c + j)%nat with (length (f y) + (i * c + j))%nat by lia.
      rewrite drop_app_add. by apply IH.
Qed.
End bind_facts.

Section packets_facts.
Context `{Target}.

Lemma le_bytes_length n v : length (le_bytes n v) = n.
Proof.
  revert v. induction n as [|n IH]; intros v; simpl; [done | by rewrite IH].
Qed.

Lemma object_bytes_length n v : length (object_bytes n v) = n.
Proof.
  unfold object_bytes.
  destruct native; rewrite ?length_reverse; apply le_bytes_length.
Qed.

Lemma le_bytes_byte n v b : b ∈ le_bytes n v → 0 ≤ b < 256.
Proof.
  revert v. induction n as [|n IH]; intros v; simpl.
  - intros Hb. inversion Hb.
  - intros Hb. apply elem_of_cons in Hb as [->|Hb];
      [apply Z.mod_pos_bound; lia | by eapply IH].
Qed.

Lemma le_value_le_bytes n v : le_value (le_bytes n v) = v `mod` 256 ^ Z.of_nat n.
Proof.
  revert v. induction n as [|n IH]; intros v.
  - simpl. by rewrite Z.mod_1_r.
  - cbn [le_bytes le_value]. rewrite IH.
    rewrite Nat2Z.inj_succ, Z.pow_succ_r by lia.
    rewrite Z.rem_mul_r by lia. done.
Qed.

(** A receiver of the same byte order reads an integer back as it was
    stored. *)
Lemma unsigned_object_bytes n v :
  0 ≤ v < 256 ^ Z.of_nat n → unsigned_of_bytes (object_bytes n v) = v.
Proof.
  intros Hv. unfold unsigned_of_bytes, object_bytes.
  destruct native; rewrite ?reverse_involutive, le_value_le_bytes;
    by apply Z.mod_small.
Qed.

Lemma signed_object_bytes n v :
  - 256 ^ Z.of_nat n ≤ 2 * v < 256 ^ Z.of_nat n →
  signed_of_bytes (object_bytes n v) = v.
Proof.
  intros Hv. unfold signed_of_bytes. rewrite object_bytes_length.
  unfold unsigned_of_bytes, object_bytes.
  assert (Hu : le_value (le_bytes n v) = v `mod` 256 ^ Z.of_nat n)
    by apply le_value_le_bytes.
  assert (Hpos : 0 < 256 ^ Z.of_nat n) by (apply Z.pow_pos_nonneg; lia).
  destruct native; rewrite ?reverse_involutive, Hu.
  all: destruct (decide (0 ≤ v)).
  all: try (rewrite (Z.mod_small v) by lia; case_decide; lia).
  all: rewrite <- (Z_mod_plus_full v 1), (Z.mod_small (v + _)) by lia;
       case_decide; lia.
Qed.

Lemma Packet_row_bytes_length (row : list Z) :
  Z.of_nat (length row) = kADCChannels →
  length (row ≫= object_bytes 2) = 4%nat.
Proof.
  intros Hrow. rewrite (bind_length_const _ 2).
  - unfold kADCChannels in Hrow. lia.
  - apply Forall_forall. intros. apply object_bytes_length.
Qed.

Lemma Packet_rows_bytes_length (p : Packet.t) :
  Packet.wf p →
  Forall (λ row, length (row ≫= object_bytes 2) = 4%nat) (Packet.mData p).
Proof.
  intros (_ & _ & Hrows). eapply Forall_impl; [exact Hrows|].
  intros row. apply Packet_row_bytes_length.
Qed.

Lemma mData_bytes_length (p : Packet.t) :
  Packet.wf p → length (Packet.mData_bytes p) = 40%nat.
Proof.
  intros Hwf. unfold Packet.mData_bytes.
  rewrite (bind_length_const _ 4) by by apply Packet_rows_bytes_length.
  destruct Hwf as (_ & Hlen & _). unfold kPointsPerMediumSizePacket in Hlen. lia.
Qed.

(** Where the sample of a point and a channel is in the payload. *)
Lemma payload_sample (p : Packet.t) (points point chan sample : Z) :
  Packet.wf p → 0 ≤ point < points →
  Packet.sample_at p point chan = Some sample →
  take 2 (drop (Z.to_nat ((point * kADCChannels + chan) * 2))
            (row ← take (Z.to_nat points) (Packet.mData p);
             sample ← row; object_bytes 2 sample))
  = object_bytes 2 sample.
Proof.
  intros Hwf Hpoint Hat. unfold Packet.sample_at, arr_get in Hat.
  rewrite decide_True in Hat by lia.
  destruct (Packet.mData p !! Z.to_nat point) as [row|] eqn:Hrow; [|done].
  simpl in Hat. case_decide as Hchan; [|done].
  assert (Hrl : Z.of_nat (length row) = kADCChannels).
  { destruct Hwf as (_ & _ & Hrows). by eapply (Forall_lookup_1 _ _ _ _ Hrows). }
  assert (Hcl : (Z.to_nat chan < length row)%nat) by by eapply lookup_lt_Some.
  unfold kADCChannels in *.
  replace (Z.to_nat ((point * 2 + chan) * 2))
    with (Z.to_nat point * 4 + Z.to_nat chan * 2)%nat by lia.
  rewrite (bind_chunk _ 4 _ _ _ _ row).
  - replace (Z.to_nat chan * 2)%nat with (Z.to_nat chan * 2 + 0)%nat by lia.
    rewrite (bind_chunk _ 2 _ _ _ _ sample); [| |done|lia].
    + rewrite drop_0. apply take_ge. by rewrite object_bytes_length.
    + apply Forall_forall. intros. apply object_bytes_length.
  - apply Forall_take. by apply Packet_rows_bytes_length.
  - rewrite lookup_take_lt by lia. done.
  - lia.
Qed.

Lemma Packet_read_payload (p : Packet.t) (points : Z) :
  Packet.wf p → 0 ≤ points ≤ kPointsPerMediumSizePacket →
  read_object (Packet.mData_bytes p) (to_size_t (2 * kADCChannels * points))
  = Some (row ← take (Z.to_nat points) (Packet.mData p);
          sample ← row; object_bytes 2 sample).
Proof.
  intros Hwf HN. unfold kPointsPerMediumSizePacket in HN.
  pose proof (mData_bytes_length p Hwf) as Hlen.
  unfold to_size_t, kADCChannels. rewrite Z.mod_small by lia.
  unfold read_object. rewrite decide_True by lia. f_equal.
  replace (Z.to_nat (2 * 2 * points)) with (Z.to_nat points * 4)%nat by lia.
  apply take_bind_const. by apply Packet_rows_bytes_length.
Qed.

Lemma Packet_write_wire (p : Packet.t) (g : Globals) (wire : Wire) :
  Packet.wf p → 0 ≤ gADCPointsPerPacket g ≤ kPointsPerMediumSizePacket →
  Packet.write p (g, wire)
  = Some (4 + 4 * gADCPointsPerPacket g,
          ({| sPacketCount := (sPacketCount g + 1) `mod` 256;
              gADCPointsPerPacket := gADCPointsPerPacket g |},
           wire ++ [char "P"; 160;
                    if decide (gADCPointsPerPacket g = 1) then char "D"
                    else char "M";
                    sPacketCount g]
                ++ (row ← take (Z.to_nat (gADCPointsPerPacket g)) (Packet.mData p);
                    sample ← row; object_bytes 2 sample))).
Proof.
  intros Hwf HN.
  pose proof (Packet_read_payload p _ Hwf HN) as Hread.
  unfold kPointsPerMediumSizePacket in HN.
  assert (Hpl : length (row ← take (Z.to_nat (gADCPointsPerPacket g)) (Packet.mData p);
                        sample ← row; object_bytes 2 sample)
                = (Z.to_nat (gADCPointsPerPacket g) * 4)%nat).
  { rewrite (bind_length_const _ 4).
    - rewrite length_take. destruct Hwf as (_ & Hl & _).
      unfold kPointsPerMediumSizePacket in Hl. lia.
    - apply Forall_take. by apply Packet_rows_bytes_length. }
  unfold Packet.write.
  unfold mbind at 1 2 3 4 5 6 7, IO_bind, mret, IO_ret, get_points, post_incr_count,
    stream_write1, stream_writeN, defined. simpl.
  rewrite Hread. simpl. rewrite Hpl, <- !app_assoc. simpl.
  do 2 f_equal. lia.
Qed.

Lemma TimePacket_writeData_wire (p : TimePacket.t) (g : Globals) (wire : Wire) :
  TimePacket.writeData p (g, wire)
  = Some (6, ({| sPacketCount := (sPacketCount g + 1) `mod` 256;
                 gADCPointsPerPacket := gADCPointsPerPacket g |},
              wire ++ [sPacketCount g; TimePacket.mTimeRequestNumber p]
                   ++ object_bytes 4 (TimePacket.mData p))).
Proof.
  unfold TimePacket.writeData, mbind, IO_bind, mret, IO_ret, post_incr_count,
    stream_write1, stream_writeN. simpl.
  rewrite object_bytes_length. by rewrite <- !app_assoc.
Qed.

Lemma IO_bind_Some {S A B} (m : IO S A) (f : A → IO S B) st a st' :
  m st = Some (a, st') → (m ≫= f) st = f a st'.
Proof. intros Hm. unfold mbind, IO_bind. by rewrite Hm. Qed.

Lemma stream_writeN_wire (bs : list Z) (g : Globals) (wire : Wire) :
  stream_writeN bs (g, wire) = Some (Z.of_nat (length bs), (g, wire ++ bs)).
Proof. done. Qed.

Lemma TimePacket_write_wire (p : TimePacket.t) (g : Globals) (wire : Wire) :
  TimePacket.write p (g, wire)
  = Some (9, ({| sPacketCount := (sPacketCount g + 1) `mod` 256;
                 gADCPointsPerPacket := gADCPointsPerPacket g |},
              wire ++ [char "P"; 160; char "N";
                       sPacketCount g; TimePacket.mTimeRequestNumber p]
                   ++ object_bytes 4 (TimePacket.mData p))).
Proof.
  unfold TimePacket.write.
  erewrite IO_bind_Some by apply stream_writeN_wire.
  erewrite IO_bind_Some by apply TimePacket_writeData_wire.
  unfold mret, IO_ret. by rewrite <- !app_assoc.
Qed.

Lemma FirstSampleTimePacket_write_wire
  (p : FirstSampleTimePacket.t) (g : Globals) (wire : Wire) :
  FirstSampleTimePacket.write p (g, wire)
  = Some (8, ({| sPacketCount := (sPacketCount g + 1) `mod` 256;
                 gADCPointsPerPacket := gADCPointsPerPacket g |},
              wire ++ [char "P"; 160; char "F"; sPacketCount g]
                   ++ object_bytes 4 (FirstSampleTimePacket.mData p))).
Proof.
  unfold FirstSampleTimePacket.write, mbind, IO_bind, mret, IO_ret,
    post_incr_count, stream_write1, stream_writeN. simpl.
  rewrite object_bytes_length. by rewrite <- !app_assoc.
Qed.

Lemma LatestUSBFrameTimePacket_write_wire
  (p : LatestUSBFrameTimePacket.t) (g : Globals) (wire : Wire) :
  LatestUSBFrameTimePacket.write p (g, wire)
  = Some (15, ({| sPacketCount := (sPacketCount g + 1) `mod` 256;
                  gADCPointsPerPacket := gADCPointsPerPacket g |},
              wire ++ [char "P"; 160; char "L"; sPacketCount g;
                       TimePacket.mTimeRequestNumber (LatestUSBFrameTimePacket.base p)]
                   ++ object_bytes 4 (TimePacket.mData (LatestUSBFrameTimePacket.base p))
                   ++ object_bytes 2 (LatestUSBFrameTimePacket.mFrameNumber p)
                   ++ object_bytes 4 (LatestUSBFrameTimePacket.mFrameTimeus p))).
Proof.
  unfold LatestUSBFrameTimePacket.write.
  erewrite IO_bind_Some by apply stream_writeN_wire.
  erewrite IO_bind_Some by apply TimePacket_writeData_wire.
  erewrite IO_bind_Some by apply stream_writeN_wire.
  erewrite IO_bind_Some by apply stream_writeN_wire.
  unfold mret, IO_ret. rewrite !object_bytes_length.
  by rewrite <- !app_assoc.
Qed.
End packets_facts.

Section addSample_facts.
Implicit Types (p : Packet.t) (g : Globals).

Lemma addSample_full chan sample p g :
  gADCPointsPerPacket g ≤ Packet.mPoint p →
  Packet.addSample chan sample p g = Some (false, p).
Proof. intros Hfull. unfold Packet.addSample. by rewrite decide_True by lia. Qed.

Lemma addSample_ok chan sample p g :
  Packet.wf p → Packet.mPoint p < gADCPointsPerPacket g →
  gADCPointsPerPacket g ≤ kPointsPerMediumSizePacket →
  0 ≤ chan < kADCChannels →
  ∃ row, Packet.mData p !! Z.to_nat (Packet.mPoint p) = Some row
         ∧ Z.of_nat (length row) = kADCChannels
         ∧ Packet.addSample chan sample p g
           = Some (true,
                   {| Packet.mPoint := Packet.mPoint p;
                      Packet.mData :=
                        <[Z.to_nat (Packet.mPoint p) :=
                            <[Z.to_nat chan := sample]> row]> (Packet.mData p) |}).
Proof.
  intros (Hpt & Hlen & Hrows) Hroom HN Hchan.
  destruct (arr_get_Some (Packet.mData p) (Packet.mPoint p)) as (row & Hget & Hrow);
    [lia|].
  assert (Hrowlen : Z.of_nat (length row) = kADCChannels).
  { eapply (Forall_lookup_1 _ _ _ _ Hrows Hrow). }
  exists row. split; [done|]. split; [done|].
  unfold Packet.addSample. rewrite decide_False by lia.
  rewrite Hget. simpl. rewrite arr_set_Some by lia. simpl.
  by rewrite arr_set_Some by lia.
Qed.

Lemma addSample_wf chan sample p g ok p' :
  Packet.wf p → gADCPointsPerPacket g ≤ kPointsPerMediumSizePacket →
  0 ≤ chan < kADCChannels →
  Packet.addSample chan sample p g = Some (ok, p') → Packet.wf p'.
Proof.
  intros Hwf HN Hchan.
  destruct (decide (gADCPointsPerPacket g ≤ Packet.mPoint p)) as [Hfull|Hroom].
  - rewrite addSample_full by done. by intros [= <- <-].
  - destruct (addSample_ok chan sample p g) as (row & Hrow & Hrl & ->);
      [done | lia | done | done |].
    intros [= <- <-]. destruct Hwf as (Hpt & Hlen & Hrows).
    unfold Packet.wf. simpl. rewrite length_insert. split_and!; try done.
    apply Forall_insert; [done|]. by rewrite length_insert.
Qed.

Lemma sample_at_insert p (row : list Z) (chan sample point ch : Z) :
  0 ≤ Packet.mPoint p < Z.of_nat (length (Packet.mData p)) →
  Packet.mData p !! Z.to_nat (Packet.mPoint p) = Some row →
  0 ≤ chan < Z.of_nat (length row) →
  Packet.sample_at
    {| Packet.mPoint := Packet.mPoint p;
       Packet.mData :=
         <[Z.to_nat (Packet.mPoint p) := <[Z.to_nat chan := sample]> row]>
           (Packet.mData p) |} point ch
  = if decide (point = Packet.mPoint p ∧ ch = chan) then Some sample
    else Packet.sample_at p point ch.
Proof.
  intros Hpt Hrow Hchan. unfold Packet.sample_at, arr_get. simpl.
  destruct (decide (0 ≤ point)) as [Hp|Hp]; [|by rewrite decide_False by lia].
  destruct (decide (point = Packet.mPoint p)) as [->|Hne].
  - rewrite list_lookup_insert_eq by lia. rewrite Hrow. simpl.
    destruct (decide (0 ≤ ch)) as [Hc|Hc]; [|by rewrite decide_False by lia].
    destruct (decide (ch = chan)) as [->|Hnc].
    + rewrite decide_True by done. apply list_lookup_insert_eq. lia.
    + rewrite decide_False by (intros [_ ?]; done).
      apply list_lookup_insert_ne. lia.
  - rewrite decide_False by (intros [? _]; done).
    by rewrite list_lookup_insert_ne by lia.
Qed.
End addSample_facts.

(** * The packets: specification *)

(** C8. While the current point index is below the configured number of
    points per packet (itself within the storage of the packet),
    [addSample(chan, sample)] for a channel of the packet and an [int16_t]
    value [sample] stores [sample] in the slot of the current point and
    that channel, leaves every other slot and the point index as they were
    and returns [true]; a second call for the same point and channel simply
    overwrites the first value.  Once the point index has reached the
    configured number it returns [false] and the packet is unchanged. *)
Theorem addSample_spec (p : Packet.t) (g : Globals) (chan sample : Z) :
  Packet.wf p → gADCPointsPerPacket g ≤ kPointsPerMediumSizePacket →
  0 ≤ chan < kADCChannels → - 2 ^ 15 ≤ sample < 2 ^ 15 →
  (Packet.mPoint p < gADCPointsPerPacket g →
   ∃ p', Packet.addSample chan sample p g = Some (true, p')
         ∧ Packet.wf p'
         ∧ Packet.mPoint p' = Packet.mPoint p
         ∧ Packet.sample_at p' (Packet.mPoint p) chan = Some sample
         ∧ (∀ point ch, ¬ (point = Packet.mPoint p ∧ ch = chan) →
              Packet.sample_at p' point ch = Packet.sample_at p point ch)
         ∧ (∀ sample2,
              - 2 ^ 15 ≤ sample2 < 2 ^ 15 →
              ∃ p'', Packet.addSample chan sample2 p' g = Some (true, p'')
                     ∧ Packet.mPoint p'' = Packet.mPoint p
                     ∧ Packet.sample_at p'' (Packet.mPoint p) chan = Some sample2))
  ∧ (gADCPointsPerPacket g ≤ Packet.mPoint p →
     Packet.addSample chan sample p g = Some (false, p)).
Proof.
  intros Hwf HN Hchan Hsample. split; [|apply addSample_full].
  intros Hroom.
  destruct (addSample_ok chan sample p g Hwf Hroom HN Hchan)
    as (row & Hrow & Hrl & Hadd).
  assert (Hwf' := addSample_wf _ _ _ _ _ _ Hwf HN Hchan Hadd).
  assert (Hin : 0 ≤ Packet.mPoint p < Z.of_nat (length (Packet.mData p))).
  { destruct Hwf as (? & Hlen & _). lia. }
  eexists. split; [exact Hadd|]. split; [done|]. split; [done|].
  split; [|split].
  - rewrite sample_at_insert by (try done; lia). by rewrite decide_True.
  - intros point ch Hother.
    rewrite sample_at_insert by (try done; lia). by rewrite decide_False.
  - intros sample2 Hsample2.
    destruct (addSample_ok chan sample2 _ g Hwf' Hroom HN Hchan)
      as (row2 & Hrow2 & Hrl2 & Hadd2).
    eexists. split; [exact Hadd2|]. split; [done|].
    simpl in Hrow2.
    change (Packet.mPoint p) with
      (Packet.mPoint {| Packet.mPoint := Packet.mPoint p;
                        Packet.mData :=
                          <[Z.to_nat (Packet.mPoint p) :=
                              <[Z.to_nat chan := sample]> row]> (Packet.mData p) |})
      at 5.
    rewrite sample_at_insert; simpl; rewrite ?length_insert; try done; try lia.
    by rewrite decide_True.
Qed.

Lemma addSample_spec_witness :
  Packet.wf (Packet.create (replicate 10 [0; 0]))
  ∧ gADCPointsPerPacket {| sPacketCount := 0; gADCPointsPerPacket := 1 |}
    ≤ kPointsPerMediumSizePacket
  ∧ 0 ≤ 1 < kADCChannels
  ∧ - 2 ^ 15 ≤ -32768 < 2 ^ 15
  ∧ ∃ p', Packet.addSample 1 (-32768) (Packet.create (replicate 10 [0; 0]))
            {| sPacketCount := 0; gADCPointsPerPacket := 1 |} = Some (true, p')
          ∧ Packet.sample_at p' 0 1 = Some (-32768).
Proof.
  assert (Hwf : Packet.wf (Packet.create (replicate 10 [0; 0]))).
  { unfold Packet.wf. simpl. split; [lia|]. split; [reflexivity|].
    repeat constructor. }
  assert (HN : gADCPointsPerPacket {| sPacketCount := 0; gADCPointsPerPacket := 1 |}
               ≤ kPointsPerMediumSizePacket)
    by (unfold kPointsPerMediumSizePacket; simpl; lia).
  assert (Hchan : 0 ≤ 1 < kADCChannels) by (unfold kADCChannels; lia).
  assert (Hsample : - 2 ^ 15 ≤ -32768 < 2 ^ 15) by lia.
  split; [exact Hwf|]. split; [exact HN|]. split; [exact Hchan|].
  split; [exact Hsample|].
  destruct (addSample_spec (Packet.create (replicate 10 [0; 0]))
              {| sPacketCount := 0; gADCPointsPerPacket := 1 |} 1 (-32768)
              Hwf HN Hchan Hsample)
    as (Hstore & _).
  destruct Hstore as (p' & Hadd & _ & _ & Hat & _); [simpl; lia|].
  exists p'. split; [exact Hadd|]. exact Hat.
Defined.

(** C7. With [N] points per packet configured, [1 <= N] and [N] within the
    storage of the packet, [Packet::write] puts on the wire the two bytes of
    the magic, the type tag (['D'] when [N = 1], ['M'] when [N > 1]), the
    sequence byte and then [N * kADCChannels * 2] bytes of payload: the
    16-bit samples of the first [N] points, point after point and, within a
    point, channel after channel; it returns the number of bytes written,
    [4 + N * kADCChannels * 2].  With one point per packet and the samples
    100 on channel 0 and -50 on channel 1, the packet is 8 bytes long and
    ends with the two bytes of 100 followed by the two bytes of -50. *)
Theorem DataPacket_write `{Target} (p : Packet.t) (g : Globals) (wire : Wire) :
  Packet.wf p → 1 ≤ gADCPointsPerPacket g ≤ kPointsPerMediumSizePacket →
  (∃ tag payload,
     Packet.write p (g, wire)
     = Some (4 + gADCPointsPerPacket g * kADCChannels * 2,
             ({| sPacketCount := (sPacketCount g + 1) `mod` 256;
                 gADCPointsPerPacket := gADCPointsPerPacket g |},
              wire ++ [char "P"; 160; tag; sPacketCount g] ++ payload))
     ∧ (gADCPointsPerPacket g = 1 → tag = char "D")
     ∧ (gADCPointsPerPacket g > 1 → tag = char "M")
     ∧ Z.of_nat (length payload) = gADCPointsPerPacket g * kADCChannels * 2
     ∧ payload = (row ← take (Z.to_nat (gADCPointsPerPacket g)) (Packet.mData p);
                  sample ← row; object_bytes 2 sample)
     ∧ (∀ point chan sample,
          0 ≤ point < gADCPointsPerPacket g →
          Packet.sample_at p point chan = Some sample →
          take 2 (drop (Z.to_nat ((point * kADCChannels + chan) * 2)) payload)
          = object_bytes 2 sample))
  ∧ (∀ (garbage : list (list Z)) (count : Z),
       Packet.wf (Packet.create garbage) →
       let g1 := {| sPacketCount := count; gADCPointsPerPacket := 1 |} in
       ∃ p1 p2 bytes,
         Packet.addSample 0 100 (Packet.create garbage) g1 = Some (true, p1)
         ∧ Packet.addSample 1 (-50) p1 g1 = Some (true, p2)
         ∧ Packet.write p2 (g1, wire)
           = Some (8, ({| sPacketCount := (count + 1) `mod` 256;
                          gADCPointsPerPacket := 1 |}, wire ++ bytes))
         ∧ bytes = [char "P"; 160; char "D"; count]
                     ++ object_bytes 2 100 ++ object_bytes 2 (-50)
         ∧ length bytes = 8%nat
         ∧ signed_of_bytes (object_bytes 2 100) = 100
         ∧ signed_of_bytes (object_bytes 2 (-50)) = -50).
Proof.
  intros Hwf HN. split.
  - eexists _, _. split; [|split_and!].
    + rewrite Packet_write_wire by (try done; lia).
      do 2 f_equal. unfold kADCChannels. lia.
    + intros HN1. by rewrite decide_True.
    + intros HN1. by rewrite decide_False by lia.
    + rewrite (bind_length_const _ 4).
      * rewrite length_take. destruct Hwf as (_ & Hl & _).
        unfold kPointsPerMediumSizePacket, kADCChannels in *. lia.
      * apply Forall_take. by apply Packet_rows_bytes_length.
    + done.
    + intros point chan sample Hpoint Hat.
      by apply payload_sample.
  - intros garbage count Hwf0 g1.
    assert (HN1 : gADCPointsPerPacket g1 ≤ kPointsPerMediumSizePacket)
      by (unfold kPointsPerMediumSizePacket; simpl; lia).
    destruct (addSample_ok 0 100 (Packet.create garbage) g1)
      as (row & Hrow & Hrl & Hadd1); try done; try (unfold kADCChannels; lia).
    set (p1 := {| Packet.mPoint := 0;
                  Packet.mData := <[0%nat := <[0%nat := 100]> row]> garbage |}).
    assert (Hwf1 : Packet.wf p1).
    { eapply addSample_wf; [exact Hwf0 | exact HN1 | | exact Hadd1].
      unfold kADCChannels. lia. }
    destruct (addSample_ok 1 (-50) p1 g1)
      as (row1 & Hrow1 & Hrl1 & Hadd2); try done; try (unfold kADCChannels; lia).
    set (p2 := {| Packet.mPoint := 0;
                  Packet.mData :=
                    <[0%nat := <[1%nat := -50]> row1]> (Packet.mData p1) |}).
    assert (Hwf2 : Packet.wf p2).
    { eapply addSample_wf; [exact Hwf1 | exact HN1 | | exact Hadd2].
      unfold kADCChannels. lia. }
    exists p1, p2. eexists. split; [exact Hadd1|]. split; [exact Hadd2|].
    split; [|split; [reflexivity|]].
    + rewrite Packet_write_wire by (try done; simpl; lia). simpl.
      do 3 f_equal.
      destruct garbage as [|row0 rest]; [done|].
      simpl in Hrow. injection Hrow as ->.
      simpl in Hrow1. injection Hrow1 as <-.
      destruct row as [|x [|y [|]]]; try (unfold kADCChannels in Hrl; simpl in Hrl; lia).
      simpl. by rewrite !app_nil_r.
    + split; [|split].
      * simpl. by rewrite !length_app, !object_bytes_length.
      * apply signed_object_bytes. simpl. lia.
      * apply signed_object_bytes. simpl. lia.
Qed.

Lemma DataPacket_write_witness :
  Packet.wf (Packet.Build 2 (replicate 10 [258; -2]))
  ∧ 1 ≤ gADCPointsPerPacket {| sPacketCount := 255; gADCPointsPerPacket := 2 |}
    ≤ kPointsPerMediumSizePacket
  ∧ ∃ tag payload,
      Packet.write (H := {| native := LittleEndian |})
        (Packet.Build 2 (replicate 10 [258; -2]))
        ({| sPacketCount := 255; gADCPointsPerPacket := 2 |}, [])
      = Some (12, ({| sPacketCount := 0; gADCPointsPerPacket := 2 |},
                   [80; 160; tag; 255] ++ payload))
      ∧ tag = 77 ∧ payload = [2; 1; 254; 255; 2; 1; 254; 255].
Proof.
  assert (Hwf : Packet.wf (Packet.Build 2 (replicate 10 [258; -2]))).
  { unfold Packet.wf. simpl. split; [lia|]. split; [reflexivity|].
    repeat constructor. }
  assert (HN : 1 ≤ gADCPointsPerPacket {| sPacketCount := 255; gADCPointsPerPacket := 2 |}
               ≤ kPointsPerMediumSizePacket)
    by (unfold kPointsPerMediumSizePacket; simpl; lia).
  split; [exact Hwf|]. split; [exact HN|].
  destruct (DataPacket_write (H := {| native := LittleEndian |})
              (Packet.Build 2 (replicate 10 [258; -2]))
              {| sPacketCount := 255; gADCPointsPerPacket := 2 |} [] Hwf HN)
    as ((tag & payload & Hwrite & _ & HM & _ & Hpayload & _) & _).
  exists tag, payload. split; [exact Hwrite|].
  split; [apply HM; simpl; lia | exact Hpayload].
Defined.

(** C9. [LatestUSBFrameTimePacket::write] puts on the wire the magic, its
    own type tag ['L'] (which is not the ['N'] of the base time packet), the
    sequence byte, the request number and the four bytes of the base
    timestamp, that is, after the tag, exactly what [TimePacket::write]
    sends for the base object, and then the two bytes of the frame number
    and the four bytes of the frame time: 15 bytes in all, which is the
    value it returns. *)
Theorem LatestUSBFrameTimePacket_write_spec `{Target}
  (p : LatestUSBFrameTimePacket.t) (g : Globals) (wire : Wire) :
  ∃ bytes base_bytes,
    LatestUSBFrameTimePacket.write p (g, wire)
    = Some (15, ({| sPacketCount := (sPacketCount g + 1) `mod` 256;
                    gADCPointsPerPacket := gADCPointsPerPacket g |},
                 wire ++ bytes))
    ∧ bytes = [char "P"; 160; char "L"; sPacketCount g;
               TimePacket.mTimeRequestNumber (LatestUSBFrameTimePacket.base p)]
              ++ object_bytes 4 (TimePacket.mData (LatestUSBFrameTimePacket.base p))
              ++ object_bytes 2 (LatestUSBFrameTimePacket.mFrameNumber p)
              ++ object_bytes 4 (LatestUSBFrameTimePacket.mFrameTimeus p)
    ∧ length bytes = 15%nat
    ∧ type_tag bytes = Some (char "L")
    ∧ char "L" ≠ char "N"
    ∧ sequence_byte bytes = Some (sPacketCount g)
    ∧ TimePacket.write (LatestUSBFrameTimePacket.base p) (g, wire)
      = Some (9, ({| sPacketCount := (sPacketCount g + 1) `mod` 256;
                     gADCPointsPerPacket := gADCPointsPerPacket g |},
                  wire ++ base_bytes))
    ∧ type_tag base_bytes = Some (char "N")
    ∧ drop 3 bytes
      = drop 3 base_bytes
        ++ object_bytes 2 (LatestUSBFrameTimePacket.mFrameNumber p)
        ++ object_bytes 4 (LatestUSBFrameTimePacket.mFrameTimeus p).
Proof.
  eexists _, _. split; [apply LatestUSBFrameTimePacket_write_wire|].
  split; [done|]. split.
  { simpl. by rewrite !length_app, !object_bytes_length. }
  split; [done|]. split; [by vm_compute|]. split; [done|].
  split; [apply TimePacket_write_wire|]. split; [done|].
  simpl. by rewrite <- ?app_assoc.
Qed.

Section sequence_facts.
Context `{Target}.

(** Every [write] appends one frame to the wire, whatever is on it already,
    sends the current count at offset 3 and moves the count on by one. *)
Lemma write_frame (p : packet) (g : Globals) :
  writable g p →
  ∃ frame,
    (∀ wire : Wire,
       write p (g, wire)
       = Some (Z.of_nat (length frame),
               ({| sPacketCount := (sPacketCount g + 1) `mod` 256;
                   gADCPointsPerPacket := gADCPointsPerPacket g |},
                wire ++ frame)))
    ∧ take 2 frame = [char "P"; 160]
    ∧ sequence_byte frame = Some (sPacketCount g).
Proof.
  intros Hw. destruct p as [p|p|p|p]; simpl in *.
  - destruct Hw as [Hwf HN].
    exists ([char "P"; 160;
             if decide (gADCPointsPerPacket g = 1) then char "D" else char "M";
             sPacketCount g]
            ++ (row ← take (Z.to_nat (gADCPointsPerPacket g)) (Packet.mData p);
                sample ← row; object_bytes 2 sample)).
    split; [|split; reflexivity].
    intros wire. rewrite Packet_write_wire by done. do 2 f_equal.
    simpl. rewrite (bind_length_const _ 4).
    + rewrite length_take. destruct Hwf as (_ & Hl & _).
      unfold kPointsPerMediumSizePacket in *. lia.
    + apply Forall_take. by apply Packet_rows_bytes_length.
  - exists ([char "P"; 160; char "N";
             sPacketCount g; TimePacket.mTimeRequestNumber p]
            ++ object_bytes 4 (TimePacket.mData p)).
    split; [|split; reflexivity].
    intros wire. rewrite TimePacket_write_wire. do 2 f_equal.
    simpl. rewrite object_bytes_length. done.
  - exists ([char "P"; 160; char "F"; sPacketCount g]
            ++ object_bytes 4 (FirstSampleTimePacket.mData p)).
    split; [|split; reflexivity].
    intros wire. rewrite FirstSampleTimePacket_write_wire. do 2 f_equal.
    simpl. rewrite object_bytes_length. done.
  - exists ([char "P"; 160; char "L"; sPacketCount g;
             TimePacket.mTimeRequestNumber (LatestUSBFrameTimePacket.base p)]
            ++ object_bytes 4 (TimePacket.mData (LatestUSBFrameTimePacket.base p))
            ++ object_bytes 2 (LatestUSBFrameTimePacket.mFrameNumber p)
            ++ object_bytes 4 (LatestUSBFrameTimePacket.mFrameTimeus p)).
    split; [|split; reflexivity].
    intros wire. rewrite LatestUSBFrameTimePacket_write_wire. do 2 f_equal.
    simpl. rewrite !length_app, !object_bytes_length. done.
Qed.

Section any_stream.
Context {S : Type} `{Stream S}.

Lemma stream_writeN_any (bs : list Z) (g : Globals) (s : S) :
  stream_writeN bs (g, s) = Some ((writeN bs s).1, (g, (writeN bs s).2)).
Proof. unfold stream_writeN. simpl. by destruct (writeN bs s). Qed.

Lemma stream_write1_any (b : Z) (g : Globals) (s : S) :
  stream_write1 b (g, s) = Some ((write1 b s).1, (g, (write1 b s).2)).
Proof. unfold stream_write1. simpl. by destruct (write1 b s). Qed.

Lemma get_points_any (g : Globals) (s : S) :
  get_points (g, s) = Some (gADCPointsPerPacket g, (g, s)).
Proof. done. Qed.

Lemma post_incr_count_any (g : Globals) (s : S) :
  post_incr_count (g, s)
  = Some (sPacketCount g,
          ({| sPacketCount := (sPacketCount g + 1) `mod` 256;
              gADCPointsPerPacket := gADCPointsPerPacket g |}, s)).
Proof. done. Qed.

Lemma defined_any {A} (a : A) (st : Globals * S) :
  defined (Some a) st = Some (a, st).
Proof. done. Qed.

(** Runs the writer in the goal one call at a time. *)
Ltac run_writer :=
  repeat (erewrite IO_bind_Some
            by first [ apply stream_writeN_any | apply stream_write1_any
                     | apply get_points_any | apply post_incr_count_any
                     | apply defined_any ]).

(** The counts returned by the stream add up to something non-negative. *)
Ltac counts :=
  repeat apply Z.add_nonneg_nonneg;
  first [ apply writeN_count | apply write1_count | assumption ].

Lemma TimePacket_writeData_any (p : TimePacket.t) (g : Globals) (s : S) :
  ∃ n s',
    TimePacket.writeData p (g, s)
    = Some (n, ({| sPacketCount := (sPacketCount g + 1) `mod` 256;
                   gADCPointsPerPacket := gADCPointsPerPacket g |}, s'))
    ∧ 0 ≤ n.
Proof.
  unfold TimePacket.writeData. run_writer. eexists _, _. split; [done|]. counts.
Qed.

(** Whatever the stream does with the bytes, also when it accepts only
    some of them, a [write] is defined, returns the sum of what the stream
    reports and moves the count on by one. *)
Lemma write_counts_on_any_stream (p : packet) (g : Globals) (s : S) :
  writable g p →
  ∃ n s',
    write p (g, s)
    = Some (n, ({| sPacketCount := (sPacketCount g + 1) `mod` 256;
                   gADCPointsPerPacket := gADCPointsPerPacket g |}, s'))
    ∧ 0 ≤ n.
Proof.
  intros Hw. destruct p as [p|p|p|p]; simpl in *.
  - destruct Hw as [Hwf HN]. unfold Packet.write.
    run_writer. rewrite (Packet_read_payload p _ Hwf HN).
    run_writer. eexists _, _. split; [done|]. counts.
  - unfold TimePacket.write. run_writer.
    destruct (TimePacket_writeData_any p g (writeN TimePacket.sHeaderAndPacketType s).2)
      as (n & s' & Hdata & Hn).
    erewrite IO_bind_Some by apply Hdata. eexists _, _. split; [done|]. counts.
  - unfold FirstSampleTimePacket.write. run_writer.
    eexists _, _. split; [done|]. counts.
  - unfold LatestUSBFrameTimePacket.write. run_writer.
    destruct (TimePacket_writeData_any (LatestUSBFrameTimePacket.base p) g
                (writeN LatestUSBFrameTimePacket.sHeaderAndPacketType s).2)
      as (n & s' & Hdata & Hn).
    erewrite IO_bind_Some by apply Hdata. run_writer.
    eexists _, _. split; [done|]. counts.
Qed.
End any_stream.

Lemma writable_count (g : Globals) (c : Z) (p : packet) :
  writable g p →
  writable {| sPacketCount := c; gADCPointsPerPacket := gADCPointsPerPacket g |} p.
Proof. by destruct p. Qed.

Lemma write_all_frames (ps : list packet) (g : Globals) :
  0 ≤ sPacketCount g < 256 → Forall (writable g) ps →
  ∃ frames,
    emit_all ps g
    = Some (frames,
            {| sPacketCount := (sPacketCount g + Z.of_nat (length ps)) `mod` 256;
               gADCPointsPerPacket := gADCPointsPerPacket g |})
    ∧ (∀ wire : Wire,
         write_all ps (g, wire)
         = Some ((λ frame, Z.of_nat (length frame)) <$> frames,
                 ({| sPacketCount := (sPacketCount g + Z.of_nat (length ps)) `mod` 256;
                     gADCPointsPerPacket := gADCPointsPerPacket g |},
                  wire ++ concat frames)))
    ∧ length frames = length ps
    ∧ (∀ (k : nat) frame,
         frames !! k = Some frame →
         sequence_byte frame = Some ((sPacketCount g + Z.of_nat k) `mod` 256)).
Proof.
  revert g. induction ps as [|p ps IH]; intros g Hc Hps.
  - exists []. simpl. rewrite Z.add_0_r, Z.mod_small by done.
    split; [by destruct g|]. split; [|split; [done|]].
    + intros wire. unfold mret, IO_ret. rewrite app_nil_r. by destruct g.
    + intros k frame Hk. destruct k; discriminate Hk.
  - inversion Hps as [|? ? Hp Hps']; subst. clear Hps. rename Hps' into Hps.
    destruct (write_frame p g Hp) as (frame & Hwrite & _ & Hseq).
    set (g1 := {| sPacketCount := (sPacketCount g + 1) `mod` 256;
                  gADCPointsPerPacket := gADCPointsPerPacket g |}) in *.
    destruct (IH g1) as (frames & Hemit & Hwall & Hlen & Hbytes).
    { simpl. apply Z.mod_pos_bound. lia. }
    { eapply Forall_impl; [exact Hps|]. intros q. apply writable_count. }
    assert (Hcount : (sPacketCount g1 + Z.of_nat (length ps)) `mod` 256
                     = (sPacketCount g + Z.of_nat (length (p :: ps))) `mod` 256).
    { simpl sPacketCount. rewrite Zplus_mod_idemp_l. f_equal. simpl length. lia. }
    rewrite Hcount in Hemit, Hwall. simpl gADCPointsPerPacket in Hemit, Hwall.
    exists (frame :: frames). split_and!.
    + cbn [emit_all]. unfold emit.
      pose proof (Hwrite []) as Hw0. unfold Wire in Hw0 |- *.
      rewrite Hw0. simpl. rewrite Hemit. done.
    + intros wire. cbn [write_all].
      erewrite IO_bind_Some by apply Hwrite.
      erewrite IO_bind_Some by apply Hwall.
      unfold mret, IO_ret. simpl. by rewrite <- app_assoc.
    + simpl. by rewrite Hlen.
    + intros [|k] fr Hfr; simpl in Hfr.
      * injection Hfr as <-. rewrite Z.add_0_r, Z.mod_small by done. done.
      * rewrite (Hbytes k fr Hfr). simpl sPacketCount.
        rewrite Zplus_mod_idemp_l. do 2 f_equal. lia.
Qed.
End sequence_facts.

(** C6. All packet classes use one 8-bit counter.  Each [write], of whatever
    class, sends the value the counter has before the call as the sequence
    byte and leaves the counter one higher modulo 256.  Hence in any
    sequence of writes that follows [ResetPacketCount] the [k]-th packet
    (counting from 0) carries [k mod 256]: the first one 0, and each
    packet the sequence byte of the one before plus 1 modulo 256. *)
Theorem sequence_bytes `{Target} (ps : list packet) (g : Globals) :
  Forall (writable g) ps →
  (∀ p, p ∈ ps →
     ∃ frame,
       emit p g
       = Some (frame, {| sPacketCount := (sPacketCount g + 1) `mod` 256;
                         gADCPointsPerPacket := gADCPointsPerPacket g |})
       ∧ sequence_byte frame = Some (sPacketCount g))
  ∧ ∃ frames g',
      emit_all ps (ResetPacketCount g) = Some (frames, g')
      ∧ (∀ wire : Wire,
           write_all ps (ResetPacketCount g, wire)
           = Some ((λ frame, Z.of_nat (length frame)) <$> frames,
                   (g', wire ++ concat frames)))
      ∧ length frames = length ps
      ∧ sPacketCount g' = Z.of_nat (length ps) `mod` 256
      ∧ (∀ (k : nat) frame,
           frames !! k = Some frame →
           sequence_byte frame = Some (Z.of_nat k `mod` 256))
      ∧ (∀ (k : nat) frame next,
           frames !! k = Some frame → frames !! S k = Some next →
           ∃ c, sequence_byte frame = Some c
                ∧ sequence_byte next = Some ((c + 1) `mod` 256)).
Proof.
  intros Hps. split.
  - intros p Hp.
    destruct (write_frame p g) as (frame & Hwrite & _ & Hseq).
    { by apply (proj1 (Forall_forall (writable g) ps) Hps). }
    exists frame. split; [|done]. unfold emit.
    pose proof (Hwrite []) as Hw0. unfold Wire in Hw0 |- *. by rewrite Hw0.
  - destruct (write_all_frames ps (ResetPacketCount g))
      as (frames & Hemit & Hwall & Hlen & Hbytes).
    { simpl. lia. }
    { eapply Forall_impl; [exact Hps|]. intros q. apply writable_count. }
    simpl in Hemit, Hwall, Hbytes.
    eexists frames, _. split; [exact Hemit|]. split; [exact Hwall|].
    split; [done|]. split; [done|]. split; [exact Hbytes|].
    intros k frame next Hk HSk. eexists. split; [by apply Hbytes|].
    rewrite (Hbytes _ _ HSk). rewrite Zplus_mod_idemp_l. do 2 f_equal. lia.
Qed.

Lemma sequence_bytes_witness :
  Forall (writable {| sPacketCount := 200; gADCPointsPerPacket := 1 |})
    [Time (TimePacket.create 5 6);
     Data (Packet.create (replicate 10 [1; 2]));
     LatestUSBFrameTime (LatestUSBFrameTimePacket.create 1 2 3 4);
     FirstSampleTime (FirstSampleTimePacket.create 9)]
  ∧ ∃ frames g',
      emit_all (H := {| native := LittleEndian |})
        [Time (TimePacket.create 5 6);
         Data (Packet.create (replicate 10 [1; 2]));
         LatestUSBFrameTime (LatestUSBFrameTimePacket.create 1 2 3 4);
         FirstSampleTime (FirstSampleTimePacket.create 9)]
        (ResetPacketCount {| sPacketCount := 200; gADCPointsPerPacket := 1 |})
      = Some (frames, g')
      ∧ sPacketCount g' = Z.of_nat 4 `mod` 256.
Proof.
  assert (Hps : Forall (writable {| sPacketCount := 200; gADCPointsPerPacket := 1 |})
                  [Time (TimePacket.create 5 6);
                   Data (Packet.create (replicate 10 [1; 2]));
                   LatestUSBFrameTime (LatestUSBFrameTimePacket.create 1 2 3 4);
                   FirstSampleTime (FirstSampleTimePacket.create 9)]).
  { repeat constructor; simpl; unfold kPointsPerMediumSizePacket; lia. }
  split; [exact Hps|].
  destruct (sequence_bytes (H := {| native := LittleEndian |}) _ _ Hps)
    as (_ & frames & g' & Hemit & _ & _ & Hcount & _).
  exists frames, g'. split; [exact Hemit | exact Hcount].
Defined.

(** * Further properties of the ring buffer *)

Section ring_queue.
Context {T : Type} (Size : Z).
Implicit Types (rb : t T) (val : T).

Lemma contents_empty rb : GetCount Size rb = 0 → contents Size rb = [].
Proof. intros Hc. unfold contents. by rewrite Hc. Qed.

Lemma contents_nonempty rb :
  wf Size rb → GetCount Size rb ≠ 0 → contents Size rb ≠ [].
Proof.
  intros Hwf Hc Hnil. pose proof (contents_length Size rb Hwf) as Hl.
  rewrite Hnil in Hl. simpl in Hl. lia.
Qed.

Lemma contents_advanced rb :
  wf Size rb → GetCount Size rb ≠ 0 →
  ∃ x, arr_get (mBuffer rb) (mOut rb) = Some x
       ∧ contents Size rb = x :: contents Size (advanced Size rb)
       ∧ GetCount Size (advanced Size rb) = GetCount Size rb - 1.
Proof.
  intros Hwf Hc.
  destruct (GetNext_ok Size rb Hwf) as (x & Hx & _).
  destruct (contents_pop Size x rb Hwf Hc) as (y & rb' & Hpop & _ & Hcs).
  destruct (GetNextTo_ok Size x rb Hwf Hc) as (y' & Hy' & Hpop').
  rewrite Hpop' in Hpop. injection Hpop as -> <-.
  assert (y = x) as -> by congruence.
  exists x. split_and!; [| done |].
  - unfold arr_get. rewrite decide_True by cursors. done.
  - unfold advanced. cursors.
Qed.

Lemma step_contents (o : op T) rb (q : list T) :
  wf Size rb → fifo_step Size o (contents Size rb) = Some q →
  ∃ rb', step Size o rb = Some rb' ∧ wf Size rb' ∧ contents Size rb' = q.
Proof.
  intros Hwf Hq.
  pose proof (contents_length Size rb Hwf) as Hl.
  pose proof (GetCount_range Size rb Hwf) as Hr.
  destruct o as [val|vals|val| | |val| |]; simpl in *.
  - case_decide; injection Hq as <-.
    + rewrite Push_as_copy by (try done; unfold GetSpace; lia). simpl.
      eexists. split; [done|]. split; [by apply wf_after_copy|].
      rewrite contents_after_copy; [done | done | unfold GetSpace; lia | simpl; lia].
    + rewrite Push_full by (unfold GetSpace; lia). by exists rb.
  - injection Hq as <-. rewrite PushN_eq by (try done; lia). simpl.
    eexists. split; [done|]. split; [by apply wf_after_copy|].
    rewrite contents_after_copy by (try done; unfold GetSpace; lia).
    f_equal. rewrite Hl. fold (GetSpace Size rb).
    destruct (decide (Z.of_nat (length vals) ≤ GetSpace Size rb)).
    + rewrite !take_ge by lia. done.
    + do 2 f_equal. lia.
  - injection Hq as <-.
    destruct (step_wf Size (OpGetTo val) rb Hwf) as (rb' & Hstep & _).
    simpl in Hstep. exists rb. split; [|done].
    destruct (GetTo Size val rb); simpl in *; [done | discriminate].
  - injection Hq as <-.
    destruct (step_wf Size OpGet rb Hwf) as (rb' & Hstep & _).
    simpl in Hstep. exists rb. split; [|done].
    destruct (Get rb); simpl in *; [done | discriminate].
  - destruct (contents Size rb) as [|x q0] eqn:Hcs; [done|]. injection Hq as <-.
    assert (Hc : GetCount Size rb ≠ 0) by (simpl in Hl; lia).
    destruct (contents_advanced rb Hwf Hc) as (y & Hy & Hcs' & _).
    destruct (GetNext_ok Size rb Hwf) as (z & _ & ->). simpl.
    eexists. split; [done|]. split; [by apply wf_advance_out|].
    fold (advanced Size rb). congruence.
  - injection Hq as <-.
    destruct (decide (GetCount Size rb = 0)) as [Hc|Hc].
    + rewrite GetNextTo_empty by done. exists rb.
      by rewrite contents_empty by done.
    + destruct (contents_advanced rb Hwf Hc) as (y & Hy & Hcs' & _).
      destruct (GetNextTo_ok Size val rb Hwf Hc) as (z & _ & ->). simpl.
      eexists. split; [done|]. split; [by apply wf_advance_out|].
      fold (advanced Size rb). by rewrite Hcs'.
  - injection Hq as <-. unfold NextOut.
    destruct (decide (GetCount Size rb = 0)) as [Hc|Hc].
    + rewrite decide_False by lia. exists rb. by rewrite contents_empty by done.
    + rewrite decide_True by done.
      destruct (contents_advanced rb Hwf Hc) as (y & Hy & Hcs' & _). simpl.
      eexists. split; [done|]. split; [by apply wf_advance_out|].
      fold (advanced Size rb). by rewrite Hcs'.
  - injection Hq as <-. exists (Clear rb). split; [done|]. split.
    + cursors.
    + apply contents_empty. cursors.
Qed.
End ring_queue.

(** X1. The buffer implements the bounded queue: from any state that
    satisfies the class invariant, a sequence of calls that the queue
    [fifo_run] accepts (no unchecked pop on an empty queue) is defined on
    the buffer, and the unread elements of the buffer afterwards are
    exactly the queue afterwards, never more than [Size - 1] of them. *)
Theorem ring_buffer_refines_fifo {T : Type} (Size : Z)
  (ops : list (op T)) (rb : t T) (q : list T) :
  wf Size rb → fifo_run Size ops (contents Size rb) = Some q →
  ∃ rb', run Size ops rb = Some rb'
         ∧ wf Size rb'
         ∧ contents Size rb' = q
         ∧ Z.of_nat (length q) ≤ Size - 1.
Proof.
  revert rb. induction ops as [|o ops IH]; intros rb Hwf Hq; simpl in *.
  - injection Hq as <-. exists rb. split_and!; try done.
    rewrite contents_length by done. by apply GetCount_range.
  - destruct (fifo_step Size o (contents Size rb)) as [q1|] eqn:Hstep;
      [|discriminate].
    destruct (step_contents Size o rb q1 Hwf Hstep) as (rb1 & -> & Hwf1 & <-).
    simpl in *. by apply IH.
Qed.

Lemma ring_buffer_refines_fifo_witness :
  wf 3 (create [10; 20; 30])
  ∧ fifo_run 3 [OpPush 1; OpPushN [2; 3; 4]; OpGetNext; OpPush 5; OpNextOut]
      (contents 3 (create [10; 20; 30])) = Some [5]
  ∧ ∃ rb' : t Z,
      run 3 [OpPush 1; OpPushN [2; 3; 4]; OpGetNext; OpPush 5; OpNextOut]
        (create [10; 20; 30]) = Some rb'
      ∧ contents 3 rb' = [5].
Proof.
  assert (Hwf : wf 3 (create [10; 20; 30])) by (unfold wf; simpl; lia).
  split; [exact Hwf|]. split; [reflexivity|].
  destruct (ring_buffer_refines_fifo 3
              [OpPush 1; OpPushN [2; 3; 4]; OpGetNext; OpPush 5; OpNextOut]
              (create [10; 20; 30]) [5] Hwf eq_refl)
    as (rb' & Hrun & _ & Hcs & _).
  exists rb'. split; [exact Hrun | exact Hcs].
Defined.

(** X2. On a non-empty buffer the checked [GetNext(T *val)] hands out the
    oldest unread element, the remaining unread elements keep their order,
    [GetCount()] goes down by one and no slot of the array is written. *)
Theorem checked_pop_takes_oldest {T : Type} (Size : Z) (rb : t T) (cell : T) :
  wf Size rb → GetCount Size rb ≠ 0 →
  ∃ x rb', GetNextTo Size cell rb = Some (true, x, rb')
           ∧ contents Size rb = x :: contents Size rb'
           ∧ GetCount Size rb' = GetCount Size rb - 1
           ∧ GetSpace Size rb' = GetSpace Size rb + 1
           ∧ mBuffer rb' = mBuffer rb.
Proof.
  intros Hwf Hc.
  destruct (contents_advanced Size rb Hwf Hc) as (x & Hx & Hcs & Hcount).
  destruct (GetNextTo_ok Size cell rb Hwf Hc) as (y & Hy & Hpop).
  assert (y = x) as ->.
  { unfold arr_get in Hx. rewrite decide_True in Hx by cursors. congruence. }
  exists x, (advanced Size rb). split; [exact Hpop|]. split; [done|].
  split; [done|]. split; [unfold GetSpace; lia | done].
Qed.

Lemma checked_pop_takes_oldest_witness :
  wf 4 (Build [10; 20; 30; 40] 1 3) ∧ GetCount 4 (Build [10; 20; 30; 40] 1 3) ≠ 0
  ∧ ∃ (x : Z) (rb' : t Z),
      GetNextTo 4 0 (Build [10; 20; 30; 40] 1 3) = Some (true, x, rb')
      ∧ contents 4 (Build [10; 20; 30; 40] 1 3) = x :: contents 4 rb'.
Proof.
  assert (Hwf : wf 4 (Build [10; 20; 30; 40] 1 3)) by (unfold wf; simpl; lia).
  assert (Hc : GetCount 4 (Build [10; 20; 30; 40] 1 3) ≠ 0) by (vm_compute; lia).
  split; [exact Hwf|]. split; [exact Hc|].
  destruct (checked_pop_takes_oldest 4 (Build [10; 20; 30; 40] 1 3) 0 Hwf Hc)
    as (x & rb' & Hpop & Hcs & _).
  exists x, rb'. split; [exact Hpop | exact Hcs].
Defined.

(** X3. On a non-empty buffer the five reading methods agree: the unchecked
    [GetNext()] returns the same element and leaves the same buffer as the
    checked [GetNext(T *val)], [NextOut()] leaves that same buffer, and both
    forms of [Get] return that element. *)
Theorem readers_agree {T : Type} (Size : Z) (rb : t T) (cell : T) :
  wf Size rb → GetCount Size rb ≠ 0 →
  ∃ x rb', GetNextTo Size cell rb = Some (true, x, rb')
           ∧ GetNext Size rb = Some (x, rb')
           ∧ NextOut Size rb = Some (true, rb')
           ∧ GetTo Size cell rb = Some (true, x)
           ∧ Get rb = Some x.
Proof.
  intros Hwf Hc.
  destruct (GetNextTo_ok Size cell rb Hwf Hc) as (x & Hx & Hpop).
  destruct (GetNext_ok Size rb Hwf) as (y & Hy & Hpop').
  assert (y = x) as -> by congruence.
  assert (Hget : arr_get (mBuffer rb) (mOut rb) = Some x).
  { unfold arr_get. rewrite decide_True by cursors. done. }
  eexists _, _. split; [exact Hpop|]. split; [exact Hpop'|].
  split_and!.
  - unfold NextOut. by rewrite decide_True.
  - unfold GetTo. rewrite decide_True by done. by rewrite Hget.
  - done.
Qed.

Lemma readers_agree_witness :
  wf 4 (Build [10; 20; 30; 40] 1 3) ∧ GetCount 4 (Build [10; 20; 30; 40] 1 3) ≠ 0
  ∧ ∃ (x : Z) (rb' : t Z),
      GetNext 4 (Build [10; 20; 30; 40] 1 3) = Some (x, rb')
      ∧ NextOut 4 (Build [10; 20; 30; 40] 1 3) = Some (true, rb')
      ∧ Get (Build [10; 20; 30; 40] 1 3) = Some x.
Proof.
  assert (Hwf : wf 4 (Build [10; 20; 30; 40] 1 3)) by (unfold wf; simpl; lia).
  assert (Hc : GetCount 4 (Build [10; 20; 30; 40] 1 3) ≠ 0) by (vm_compute; lia).
  split; [exact Hwf|]. split; [exact Hc|].
  destruct (readers_agree 4 (Build [10; 20; 30; 40] 1 3) 0 Hwf Hc)
    as (x & rb' & _ & Hpop & Hskip & _ & Hget).
  exists x, rb'. split; [exact Hpop|]. split; [exact Hskip | exact Hget].
Defined.

(** X4. Who writes what.  The pushing methods never move the read cursor;
    the reading methods never move the write cursor and never write a slot
    of the array; [Clear] moves the read cursor only. *)
Theorem cursor_ownership {T : Type} (Size : Z) (rb rb' : t T) :
  (∀ val ok, Push Size val rb = Some (ok, rb') → mOut rb' = mOut rb)
  ∧ (∀ vals n k, PushN Size vals n rb = Some (k, rb') → mOut rb' = mOut rb)
  ∧ (∀ x, GetNext Size rb = Some (x, rb') →
          mIn rb' = mIn rb ∧ mBuffer rb' = mBuffer rb)
  ∧ (∀ cell ok x, GetNextTo Size cell rb = Some (ok, x, rb') →
          mIn rb' = mIn rb ∧ mBuffer rb' = mBuffer rb)
  ∧ (∀ ok, NextOut Size rb = Some (ok, rb') →
          mIn rb' = mIn rb ∧ mBuffer rb' = mBuffer rb)
  ∧ mIn (Clear rb) = mIn rb ∧ mBuffer (Clear rb) = mBuffer rb.
Proof.
  split_and!; try done.
  - intros val ok. unfold Push. case_decide; [|by intros [= _ <-]].
    destruct (arr_set _ _ _); simpl; [by intros [= _ <-] | done].
  - intros vals n k. unfold PushN.
    destruct (decide (n > GetSpace Size rb)); simpl.
    all: repeat (case_decide; simpl); try by intros [= _ <-].
    all: repeat (destruct (memcpy _ _ _ _ _); simpl; [|done]);
      repeat (case_decide; simpl); try by intros [= _ <-].
    all: repeat (destruct (memcpy _ _ _ _ _); simpl; [|done]);
      try by intros [= _ <-].
  - intros x. unfold GetNext.
    destruct (arr_get _ _); simpl; [by intros [= _ <-] | done].
  - intros cell ok x. unfold GetNextTo. case_decide; [|by intros [= _ _ <-]].
    destruct (arr_get _ _); simpl; [by intros [= _ _ <-] | done].
  - intros ok. unfold NextOut. case_decide; by intros [= _ <-].
Qed.

Lemma cursor_ownership_witness :
  Push 4 7 (Build [10; 20; 30; 40] 1 3) = Some (true, Build [10; 7; 30; 40] 2 3)
  ∧ mOut (Build [10; 7; 30; 40] 2 3) = mOut (Build [10; 20; 30; 40] 1 3).
Proof.
  split; [reflexivity|].
  destruct (cursor_ownership 4 (Build [10; 20; 30; 40] 1 3)
              (Build [10; 7; 30; 40] 2 3)) as (Hpush & _).
  apply (Hpush 7 true). reflexivity.
Defined.

(** X5. On a buffer that is neither empty nor full a push and a checked pop
    commute: both orders succeed, hand out the same element and leave the
    same buffer.  (The producer writes the slot at the write cursor, the
    consumer reads the slot at the read cursor, and the two differ.) *)
Theorem push_pop_commute {T : Type} (Size : Z) (rb : t T) (val cell : T) :
  wf Size rb → GetCount Size rb ≠ 0 → GetSpace Size rb ≠ 0 →
  ∃ x rb1 rb2 rb',
    Push Size val rb = Some (true, rb1)
    ∧ GetNextTo Size cell rb1 = Some (true, x, rb')
    ∧ GetNextTo Size cell rb = Some (true, x, rb2)
    ∧ Push Size val rb2 = Some (true, rb').
Proof.
  intros Hwf Hc Hs.
  assert (Hwf2 := wf_advance_out Size rb Hwf).
  destruct (GetNextTo_ok Size cell rb Hwf Hc) as (x & Hx & Hpop).
  rewrite Push_ok by done.
  set (rb1 := {| mBuffer := <[Z.to_nat (mIn rb) := val]> (mBuffer rb);
                 mIn := wrap Size (mIn rb + 1); mOut := mOut rb |}).
  assert (Hwf1 : wf Size rb1).
  { unfold wf, rb1 in *. simpl. rewrite length_insert. cursors. }
  assert (Hc1 : GetCount Size rb1 ≠ 0) by (subst rb1; cursors).
  destruct (GetNextTo_ok Size cell rb1 Hwf1 Hc1) as (y & Hy & Hpop1).
  assert (y = x) as ->.
  { subst rb1. simpl in Hy.
    rewrite list_lookup_insert_ne in Hy by cursors. congruence. }
  eexists x, rb1, _, _. split; [done|]. split; [exact Hpop1|].
  split; [exact Hpop|].
  rewrite Push_ok by (try done; cursors). done.
Qed.

Lemma push_pop_commute_witness :
  wf 4 (Build [10; 20; 30; 40] 1 3) ∧ GetCount 4 (Build [10; 20; 30; 40] 1 3) ≠ 0
  ∧ GetSpace 4 (Build [10; 20; 30; 40] 1 3) ≠ 0
  ∧ ∃ (x : Z) (rb1 rb2 rb' : t Z),
      Push 4 7 (Build [10; 20; 30; 40] 1 3) = Some (true, rb1)
      ∧ GetNextTo 4 0 rb1 = Some (true, x, rb')
      ∧ GetNextTo 4 0 (Build [10; 20; 30; 40] 1 3) = Some (true, x, rb2)
      ∧ Push 4 7 rb2 = Some (true, rb').
Proof.
  assert (Hwf : wf 4 (Build [10; 20; 30; 40] 1 3)) by (unfold wf; simpl; lia).
  assert (Hc : GetCount 4 (Build [10; 20; 30; 40] 1 3) ≠ 0) by (vm_compute; lia).
  assert (Hs : GetSpace 4 (Build [10; 20; 30; 40] 1 3) ≠ 0) by (vm_compute; lia).
  split; [exact Hwf|]. split; [exact Hc|]. split; [exact Hs|].
  apply (push_pop_commute 4 (Build [10; 20; 30; 40] 1 3) 7 0 Hwf Hc Hs).
Defined.

(** X6. The bulk [Push] with nothing to do: with [nToPushIn = 0], or on a
    full buffer, it returns 0 and leaves the buffer exactly as it was,
    without looking at the array it is given. *)
Theorem PushN_nothing_to_push {T : Type} (Size : Z)
  (val : list T) (n : Z) (rb : t T) :
  wf Size rb → 0 ≤ n → n = 0 ∨ GetSpace Size rb = 0 →
  PushN Size val n rb = Some (0, rb).
Proof.
  intros Hwf Hn Hnone. pose proof (GetSpace_range Size rb Hwf) as Hsp.
  unfold PushN. destruct (decide (n > GetSpace Size rb)); simpl.
  - assert (GetSpace Size rb = 0) as -> by lia. done.
  - assert (n = 0) as -> by lia. done.
Qed.

Lemma PushN_nothing_to_push_witness :
  wf 3 (Build [10; 20; 30] 1 2) ∧ 0 ≤ 5
  ∧ (5 = 0 ∨ GetSpace 3 (Build [10; 20; 30] 1 2) = 0)
  ∧ PushN 3 [] 5 (Build [10; 20; 30] 1 2) = Some (0, Build [10; 20; 30] 1 2).
Proof.
  assert (Hwf : wf 3 (Build [10; 20; 30] 1 2)) by (unfold wf; simpl; lia).
  assert (Hfull : 5 = 0 ∨ GetSpace 3 (Build [10; 20; 30] 1 2) = 0)
    by (right; reflexivity).
  split; [exact Hwf|]. split; [lia|]. split; [exact Hfull|].
  apply (PushN_nothing_to_push 3 [] 5 (Build [10; 20; 30] 1 2) Hwf); [lia | exact Hfull].
Defined.



Section ring_bulk_as_single.
Context {T : Type} (Size : Z).
Implicit Types (rb : t T) (val : list T).

(** Two arrays of [Size] slots that agree slot by slot, counting the slots
    from [base] round the ring, are equal. *)
Lemma slots_ext (base : Z) (l1 l2 : list T) :
  Z.of_nat (length l1) = Size → Z.of_nat (length l2) = Size →
  (∀ i, 0 ≤ i < Size →
        arr_get l1 ((base + i) `mod` Size) = arr_get l2 ((base + i) `mod` Size)) →
  l1 = l2.
Proof.
  intros H1 H2 Hslots. apply list_eq. intros j.
  destruct (decide (Z.of_nat j < Size)) as [Hj|Hj].
  - specialize (Hslots ((Z.of_nat j - base) `mod` Size)).
    rewrite Zplus_mod_idemp_r in Hslots.
    replace (base + (Z.of_nat j - base)) with (Z.of_nat j) in Hslots by lia.
    rewrite (Z.mod_small (Z.of_nat j)) in Hslots by lia.
    unfold arr_get in Hslots. rewrite !decide_True in Hslots by lia.
    rewrite Nat2Z.id in Hslots. apply Hslots. apply Z.mod_pos_bound. lia.
  - rewrite !lookup_ge_None_2 by lia. done.
Qed.

Lemma copy_two_ranges_slot val k rb i :
  wf Size rb → 0 ≤ k ≤ GetSpace Size rb → k ≤ Z.of_nat (length val) →
  0 ≤ i < Size →
  arr_get (copy_two_ranges Size val k rb) ((mIn rb + i) `mod` Size)
  = if decide (i < k) then arr_get val i
    else arr_get (mBuffer rb) ((mIn rb + i) `mod` Size).
Proof.
  intros Hwf Hk Hval Hi. case_decide.
  - apply copy_two_ranges_written; try done. lia.
  - apply copy_two_ranges_frame; try done. lia.
Qed.

Lemma arr_get_cons (x : T) (l : list T) (i : Z) :
  1 ≤ i → arr_get (x :: l) i = arr_get l (i - 1).
Proof.
  intros Hi. unfold arr_get. rewrite !decide_True by lia.
  replace (Z.to_nat i) with (S (Z.to_nat (i - 1))) by lia. done.
Qed.

Lemma copy_two_ranges_cons (x : T) val rb :
  wf Size rb → 1 + Z.of_nat (length val) ≤ GetSpace Size rb →
  copy_two_ranges Size val (Z.of_nat (length val))
    {| mBuffer := copy_two_ranges Size [x] 1 rb;
       mIn := (mIn rb + 1) `mod` Size; mOut := mOut rb |}
  = copy_two_ranges Size (x :: val) (1 + Z.of_nat (length val)) rb.
Proof.
  intros Hwf Hfit.
  pose proof (GetSpace_range Size rb Hwf) as Hsp.
  set (rb1 := {| mBuffer := copy_two_ranges Size [x] 1 rb;
                 mIn := (mIn rb + 1) `mod` Size; mOut := mOut rb |}).
  assert (Hwf1 : wf Size rb1) by by apply wf_after_copy.
  assert (Hsp1 : GetSpace Size rb1 = GetSpace Size rb - 1).
  { unfold GetSpace. unfold rb1. rewrite GetCount_after_copy by (try done; lia). lia. }
  assert (HmIn : 0 ≤ mIn rb < Size) by apply Hwf.
  assert (Hlen : Z.of_nat (length (mBuffer rb)) = Size) by apply Hwf.
  apply (slots_ext (mIn rb)).
  { rewrite copy_two_ranges_length. apply Hwf1. }
  { by rewrite copy_two_ranges_length. }
  intros i Hi.
  rewrite (copy_two_ranges_slot (x :: val)) by (try done; simpl; lia).
  assert (Hshift : (mIn rb + i) `mod` Size
                   = (mIn rb1 + (i - 1) `mod` Size) `mod` Size).
  { simpl. rewrite Zplus_mod_idemp_l, Zplus_mod_idemp_r. f_equal. lia. }
  rewrite Hshift at 1.
  rewrite copy_two_ranges_slot
    by (try done; try lia; apply Z.mod_pos_bound; lia).
  rewrite <- Hshift. simpl mBuffer.
  rewrite (copy_two_ranges_slot [x]) by (try done; simpl; lia).
  destruct (decide (i = 0)) as [->|Hi0].
  - replace ((0 - 1) `mod` Size) with (Size - 1)
      by (apply (Z.mod_unique_pos _ _ (-1)); lia).
    rewrite decide_False by lia. rewrite !decide_True by lia. done.
  - rewrite (Z.mod_small (i - 1)) by lia.
    rewrite (decide_False (P := i < 1)) by lia.
    destruct (decide (i - 1 < Z.of_nat (length val))).
    + rewrite decide_True by lia. by rewrite arr_get_cons by lia.
    + by rewrite decide_False by lia.
Qed.

Lemma push_all_copy val rb :
  wf Size rb → Z.of_nat (length val) ≤ GetSpace Size rb →
  push_all Size val rb
  = Some (replicate (length val) true,
          {| mBuffer := copy_two_ranges Size val (Z.of_nat (length val)) rb;
             mIn := (mIn rb + Z.of_nat (length val)) `mod` Size;
             mOut := mOut rb |}).
Proof.
  revert rb. induction val as [|x val IH]; intros rb Hwf Hfit.
  - simpl. change (Z.of_nat 0) with 0.
    destruct Hwf as (Hlen & HmIn & HmOut).
    rewrite Z.add_0_r, Z.mod_small by done.
    unfold copy_two_ranges. replace (Z.min 0 (Size - mIn rb)) with 0 by lia.
    simpl. by destruct rb.
  - cbn [push_all]. simpl length in *.
    rewrite Push_as_copy by (try done; lia). simpl.
    rewrite IH; [| by apply wf_after_copy |]; cycle 1.
    { unfold GetSpace. rewrite GetCount_after_copy by (try done; lia).
      unfold GetSpace in Hfit. lia. }
    simpl. do 3 f_equal.
    + rewrite copy_two_ranges_cons by (try done; lia). f_equal. lia.
    + rewrite Zplus_mod_idemp_l. f_equal. lia.
Qed.

Lemma copy_two_ranges_take val k rb :
  wf Size rb → 0 ≤ k ≤ GetSpace Size rb → k ≤ Z.of_nat (length val) →
  copy_two_ranges Size (take (Z.to_nat k) val) k rb
  = copy_two_ranges Size val k rb.
Proof.
  intros Hwf Hk Hval. apply (slots_ext (mIn rb)).
  { rewrite copy_two_ranges_length. apply Hwf. }
  { rewrite copy_two_ranges_length. apply Hwf. }
  intros i Hi.
  rewrite !copy_two_ranges_slot by (try done; rewrite ?length_take; lia).
  case_decide; [|done].
  unfold arr_get. rewrite !decide_True by lia. apply lookup_take_lt. lia.
Qed.
End ring_bulk_as_single.

(** X8. The bulk [Push] is the single [Push] repeated: pushing [n] items
    of an array in one call leaves exactly the buffer that pushing the first
    [min(n, GetSpace())] of them one by one leaves, and each of those single
    pushes succeeds. *)
Theorem bulk_push_is_repeated_push {T : Type} (Size : Z)
  (val : list T) (n : Z) (rb : t T) :
  wf Size rb → 0 ≤ n ≤ Z.of_nat (length val) →
  ∃ rb', PushN Size val n rb = Some (Z.min n (GetSpace Size rb), rb')
         ∧ push_all Size (take (Z.to_nat (Z.min n (GetSpace Size rb))) val) rb
           = Some (replicate (Z.to_nat (Z.min n (GetSpace Size rb))) true, rb').
Proof.
  intros Hwf Hn. pose proof (GetSpace_range Size rb Hwf) as Hsp.
  set (k := Z.min n (GetSpace Size rb)).
  assert (Hk : 0 ≤ k ≤ GetSpace Size rb ∧ k ≤ Z.of_nat (length val))
    by (subst k; lia).
  assert (Hlen : length (take (Z.to_nat k) val) = Z.to_nat k)
    by (rewrite length_take; lia).
  eexists. rewrite PushN_eq by done. simpl. fold k. split; [done|].
  rewrite push_all_copy by (try done; lia).
  rewrite Hlen, Z2Nat.id by lia.
  by rewrite copy_two_ranges_take by (try done; lia).
Qed.

Lemma bulk_push_is_repeated_push_witness :
  wf 4 (Build [0; 0; 0; 0] 3 3) ∧ 0 ≤ 5 ≤ Z.of_nat (length [7; 8; 9; 10; 11])
  ∧ ∃ rb' : t Z,
      PushN 4 [7; 8; 9; 10; 11] 5 (Build [0; 0; 0; 0] 3 3) = Some (3, rb')
      ∧ push_all 4 [7; 8; 9] (Build [0; 0; 0; 0] 3 3)
        = Some ([true; true; true], rb').
Proof.
  assert (Hwf : wf 4 (Build [0; 0; 0; 0] 3 3)) by (unfold wf; simpl; lia).
  assert (Hn : 0 ≤ 5 ≤ Z.of_nat (length [7; 8; 9; 10; 11])) by (simpl; lia).
  split; [exact Hwf|]. split; [exact Hn|].
  apply (bulk_push_is_repeated_push 4 [7; 8; 9; 10; 11] 5
           (Build [0; 0; 0; 0] 3 3) Hwf Hn).
Defined.

(** * Further properties of the packets *)

(** X9. For an [int32_t] tick count and a [uint8_t] request number,
    [TimePacket::write] sends nine bytes and returns 9: the magic, the tag
    ['N'], the sequence byte, the request number and the four bytes of the
    tick count, from which a receiver of the same byte order reads the
    32-bit tick count back as it was given to the constructor. *)
Theorem TimePacket_write_spec `{Target}
  (tick32us timeRequestNumber : Z) (g : Globals) (wire : Wire) :
  - 2 ^ 31 ≤ tick32us < 2 ^ 31 → 0 ≤ timeRequestNumber < 256 →
  ∃ bytes,
    TimePacket.write (TimePacket.create tick32us timeRequestNumber) (g, wire)
    = Some (9, ({| sPacketCount := (sPacketCount g + 1) `mod` 256;
                   gADCPointsPerPacket := gADCPointsPerPacket g |},
                wire ++ bytes))
    ∧ length bytes = 9%nat
    ∧ take 4 bytes = [char "P"; 160; char "N"; sPacketCount g]
    ∧ bytes !! 4%nat = Some timeRequestNumber
    ∧ signed_of_bytes (drop 5 bytes) = tick32us.
Proof.
  intros Hrange Hrequest. eexists. split; [apply TimePacket_write_wire|].
  simpl. split; [by rewrite object_bytes_length|]. split; [done|].
  split; [done|]. apply signed_object_bytes. simpl. lia.
Qed.

Lemma TimePacket_write_spec_witness :
  - 2 ^ 31 ≤ -2 < 2 ^ 31 ∧ 0 ≤ 255 < 256
  ∧ ∃ bytes,
      TimePacket.write (H := {| native := BigEndian |})
        (TimePacket.create (-2) 255)
        ({| sPacketCount := 255; gADCPointsPerPacket := 1 |}, [1])
      = Some (9, ({| sPacketCount := 0; gADCPointsPerPacket := 1 |}, [1] ++ bytes))
      ∧ bytes = [80; 160; 78; 255; 255; 255; 255; 255; 254].
Proof.
  assert (Hrange : - 2 ^ 31 ≤ -2 < 2 ^ 31) by lia.
  assert (Hrequest : 0 ≤ 255 < 256) by lia.
  split; [exact Hrange|]. split; [exact Hrequest|].
  destruct (TimePacket_write_spec (H := {| native := BigEndian |}) (-2) 255
              {| sPacketCount := 255; gADCPointsPerPacket := 1 |} [1]
              Hrange Hrequest)
    as (bytes & Hwrite & _).
  exists bytes. split; [exact Hwrite|].
  vm_compute in Hwrite. injection Hwrite as Hbytes. exact (eq_sym Hbytes).
Defined.

(** X10. [FirstSampleTimePacket::write] sends eight bytes and returns 8:
    the magic, the tag ['F'], the sequence byte and the four bytes of the
    tick count (no request number), from which the 32-bit tick count is
    read back as it was given to the constructor. *)
Theorem FirstSampleTimePacket_write_spec `{Target}
  (tick32us : Z) (g : Globals) (wire : Wire) :
  - 2 ^ 31 ≤ tick32us < 2 ^ 31 →
  ∃ bytes,
    FirstSampleTimePacket.write (FirstSampleTimePacket.create tick32us) (g, wire)
    = Some (8, ({| sPacketCount := (sPacketCount g + 1) `mod` 256;
                   gADCPointsPerPacket := gADCPointsPerPacket g |},
                wire ++ bytes))
    ∧ length bytes = 8%nat
    ∧ take 4 bytes = [char "P"; 160; char "F"; sPacketCount g]
    ∧ signed_of_bytes (drop 4 bytes) = tick32us.
Proof.
  intros Hrange. eexists. split; [apply FirstSampleTimePacket_write_wire|].
  simpl. split; [by rewrite object_bytes_length|]. split; [done|].
  apply signed_object_bytes. simpl. lia.
Qed.

Lemma FirstSampleTimePacket_write_spec_witness :
  - 2 ^ 31 ≤ 258 < 2 ^ 31
  ∧ ∃ bytes,
      FirstSampleTimePacket.write (H := {| native := LittleEndian |})
        (FirstSampleTimePacket.create 258)
        ({| sPacketCount := 3; gADCPointsPerPacket := 1 |}, [])
      = Some (8, ({| sPacketCount := 4; gADCPointsPerPacket := 1 |}, [] ++ bytes))
      ∧ bytes = [80; 160; 70; 3; 2; 1; 0; 0].
Proof.
  assert (Hrange : - 2 ^ 31 ≤ 258 < 2 ^ 31) by lia.
  split; [exact Hrange|].
  destruct (FirstSampleTimePacket_write_spec (H := {| native := LittleEndian |}) 258
              {| sPacketCount := 3; gADCPointsPerPacket := 1 |} [] Hrange)
    as (bytes & Hwrite & _).
  exists bytes. split; [exact Hwrite|].
  vm_compute in Hwrite. injection Hwrite as Hbytes. exact (eq_sym Hbytes).
Defined.

(** X11. From the fifteen bytes [LatestUSBFrameTimePacket::write] sends, a
    receiver of the same byte order reads back all four arguments of the
    constructor (an [int32_t], a [uint8_t], a [uint16_t] and an [int32_t]):
    the request number at offset 4, the 32-bit tick count at offsets 5 to
    8, the unsigned 16-bit frame number at offsets 9 and 10 and the 32-bit
    frame time at offsets 11 to 14. *)
Theorem LatestUSBFrameTimePacket_round_trip `{Target}
  (tick32us timeRequestNumber frameNumber latestFrameus : Z)
  (g : Globals) (wire : Wire) :
  - 2 ^ 31 ≤ tick32us < 2 ^ 31 → 0 ≤ timeRequestNumber < 256 →
  0 ≤ frameNumber < 2 ^ 16 → - 2 ^ 31 ≤ latestFrameus < 2 ^ 31 →
  ∃ n g' bytes,
    LatestUSBFrameTimePacket.write
      (LatestUSBFrameTimePacket.create tick32us timeRequestNumber
         frameNumber latestFrameus) (g, wire)
    = Some (n, (g', wire ++ bytes))
    ∧ bytes !! 4%nat = Some timeRequestNumber
    ∧ signed_of_bytes (take 4 (drop 5 bytes)) = tick32us
    ∧ unsigned_of_bytes (take 2 (drop 9 bytes)) = frameNumber
    ∧ signed_of_bytes (drop 11 bytes) = latestFrameus.
Proof.
  intros Htick Hrequest Hframe Htime. eexists _, _, _.
  split; [apply LatestUSBFrameTimePacket_write_wire|]. simpl.
  split; [done|].
  pose proof (object_bytes_length 4 tick32us) as H4.
  pose proof (object_bytes_length 2 frameNumber) as H2.
  destruct (object_bytes 4 tick32us) as [|t0 [|t1 [|t2 [|t3 [|]]]]] eqn:Ht;
    try discriminate H4.
  destruct (object_bytes 2 frameNumber) as [|f0 [|f1 [|]]] eqn:Hf;
    try discriminate H2.
  cbn [app firstn skipn]. rewrite take_0, drop_0, <- Ht, <- Hf. split_and!.
  - apply signed_object_bytes. simpl. lia.
  - apply unsigned_object_bytes. simpl. lia.
  - apply signed_object_bytes. simpl. lia.
Qed.

Lemma LatestUSBFrameTimePacket_round_trip_witness :
  - 2 ^ 31 ≤ -3 < 2 ^ 31 ∧ 0 ≤ 255 < 256 ∧ 0 ≤ 65535 < 2 ^ 16
  ∧ - 2 ^ 31 ≤ 70000 < 2 ^ 31
  ∧ ∃ n g' bytes,
      LatestUSBFrameTimePacket.write (H := {| native := LittleEndian |})
        (LatestUSBFrameTimePacket.create (-3) 255 65535 70000)
        ({| sPacketCount := 0; gADCPointsPerPacket := 1 |}, [])
      = Some (n, (g', [] ++ bytes))
      ∧ bytes !! 4%nat = Some 255
      ∧ unsigned_of_bytes (H := {| native := LittleEndian |})
          (take 2 (drop 9 bytes)) = 65535.
Proof.
  assert (H1 : - 2 ^ 31 ≤ -3 < 2 ^ 31) by lia.
  assert (Hr : 0 ≤ 255 < 256) by lia.
  assert (H2 : 0 ≤ 65535 < 2 ^ 16) by lia.
  assert (H3 : - 2 ^ 31 ≤ 70000 < 2 ^ 31) by lia.
  split; [exact H1|]. split; [exact Hr|]. split; [exact H2|]. split; [exact H3|].
  destruct (LatestUSBFrameTimePacket_round_trip
              (H := {| native := LittleEndian |}) (-3) 255 65535 70000
              {| sPacketCount := 0; gADCPointsPerPacket := 1 |} [] H1 Hr H2 H3)
    as (n & g' & bytes & Hwrite & Hrequest & _ & Hframe & _).
  exists n, g', bytes. split; [exact Hwrite|]. split; [exact Hrequest | exact Hframe].
Defined.

Section tag_facts.
Context `{Target}.

Lemma emit_wire (p : packet) (g g' : Globals) (n : Z) (frame : list Z) :
  (∀ wire : Wire, write p (g, wire) = Some (n, (g', wire ++ frame))) →
  emit p g = Some (frame, g').
Proof.
  intros Hwrite. unfold emit.
  pose proof (Hwrite []) as Hw0. unfold Wire in Hw0 |- *. by rewrite Hw0.
Qed.

Lemma emit_tag (p : packet) (g : Globals) :
  writable g p →
  ∃ frame g',
    emit p g = Some (frame, g')
    ∧ type_tag frame
      = Some match p with
             | Data _ =>
                 if decide (gADCPointsPerPacket g = 1) then char "D" else char "M"
             | Time _ => char "N"
             | FirstSampleTime _ => char "F"
             | LatestUSBFrameTime _ => char "L"
             end.
Proof.
  intros Hw. destruct p as [p|p|p|p]; simpl in Hw.
  - destruct Hw as [Hwf HN]. eexists _, _. split.
    + eapply emit_wire. intros wire. simpl write.
      by rewrite Packet_write_wire by done.
    + done.
  - eexists _, _. split.
    + eapply emit_wire. intros wire. simpl write.
      by rewrite TimePacket_write_wire.
    + done.
  - eexists _, _. split.
    + eapply emit_wire. intros wire. simpl write.
      by rewrite FirstSampleTimePacket_write_wire.
    + done.
  - eexists _, _. split.
    + eapply emit_wire. intros wire. simpl write.
      by rewrite LatestUSBFrameTimePacket_write_wire.
    + done.
Qed.
End tag_facts.

(** X12. The type tag tells the classes apart: whatever the globals and
    the contents of two packets, if the frames their [write]s send carry
    the same tag, the packets are of the same class.  (A data packet has
    two tags, ['D'] and ['M'], and no other class uses either.) *)
Theorem type_tag_identifies_class `{Target}
  (p1 p2 : packet) (g1 g2 : Globals) :
  writable g1 p1 → writable g2 p2 →
  ∃ frame1 frame2 g1' g2',
    emit p1 g1 = Some (frame1, g1')
    ∧ emit p2 g2 = Some (frame2, g2')
    ∧ (type_tag frame1 = type_tag frame2 → same_class p1 p2).
Proof.
  intros Hw1 Hw2.
  destruct (emit_tag p1 g1 Hw1) as (frame1 & g1' & Hemit1 & Htag1).
  destruct (emit_tag p2 g2 Hw2) as (frame2 & g2' & Hemit2 & Htag2).
  exists frame1, frame2, g1', g2'. split; [done|]. split; [done|].
  rewrite Htag1, Htag2. intros [= Heq].
  destruct p1, p2; simpl; try done;
    repeat case_decide; vm_compute in Heq; discriminate Heq.
Qed.

Lemma type_tag_identifies_class_witness :
  writable {| sPacketCount := 0; gADCPointsPerPacket := 1 |}
    (Time (TimePacket.create 1 2))
  ∧ writable {| sPacketCount := 9; gADCPointsPerPacket := 2 |}
      (Data (Packet.create (replicate 10 [0; 0])))
  ∧ ∃ frame1 frame2 g1' g2',
      emit (H := {| native := LittleEndian |}) (Time (TimePacket.create 1 2))
        {| sPacketCount := 0; gADCPointsPerPacket := 1 |} = Some (frame1, g1')
      ∧ emit (H := {| native := LittleEndian |})
          (Data (Packet.create (replicate 10 [0; 0])))
          {| sPacketCount := 9; gADCPointsPerPacket := 2 |} = Some (frame2, g2')
      ∧ (type_tag frame1 = type_tag frame2 →
         same_class (Time (TimePacket.create 1 2))
           (Data (Packet.create (replicate 10 [0; 0])))).
Proof.
  assert (Hw1 : writable {| sPacketCount := 0; gADCPointsPerPacket := 1 |}
                  (Time (TimePacket.create 1 2))) by exact I.
  assert (Hw2 : writable {| sPacketCount := 9; gADCPointsPerPacket := 2 |}
                  (Data (Packet.create (replicate 10 [0; 0])))).
  { split; [|simpl; unfold kPointsPerMediumSizePacket; lia].
    unfold Packet.wf. simpl. split; [lia|]. split; [reflexivity|].
    repeat constructor. }
  split; [exact Hw1|]. split; [exact Hw2|].
  apply (type_tag_identifies_class (H := {| native := LittleEndian |})
           _ _ _ _ Hw1 Hw2).
Defined.

Section fill_facts.
Implicit Types (p : Packet.t) (g : Globals).

Lemma add_point_row p g (a b : Z) :
  Packet.wf p → Packet.mPoint p < gADCPointsPerPacket g →
  gADCPointsPerPacket g ≤ kPointsPerMediumSizePacket →
  ∃ p1, Packet.addSample 0 a p g = Some (true, p1)
        ∧ Packet.addSample 1 b p1 g
          = Some (true,
                  {| Packet.mPoint := Packet.mPoint p;
                     Packet.mData :=
                       <[Z.to_nat (Packet.mPoint p) := [a; b]]> (Packet.mData p) |}).
Proof.
  intros Hwf Hroom HN.
  assert (Hc0 : 0 ≤ 0 < kADCChannels) by (unfold kADCChannels; lia).
  assert (Hc1 : 0 ≤ 1 < kADCChannels) by (unfold kADCChannels; lia).
  destruct (addSample_ok 0 a p g Hwf Hroom HN Hc0) as (row & Hrow & Hrl & Hadd0).
  assert (Hwf0 := addSample_wf _ _ _ _ _ _ Hwf HN Hc0 Hadd0).
  eexists. split; [exact Hadd0|].
  destruct (addSample_ok 1 b _ g Hwf0 Hroom HN Hc1) as (row1 & Hrow1 & _ & Hadd1).
  rewrite Hadd1. simpl in *.
  assert (Hin : (Z.to_nat (Packet.mPoint p) < length (Packet.mData p))%nat)
    by by eapply lookup_lt_Some.
  rewrite list_lookup_insert_eq in Hrow1 by done. injection Hrow1 as <-.
  rewrite list_insert_insert_eq.
  destruct row as [|r0 [|r1 [|]]];
    try (unfold kADCChannels in Hrl; simpl in Hrl; lia).
  done.
Qed.

Lemma add_points_rows (points : list (Z * Z)) p g :
  Packet.wf p →
  Packet.mPoint p + Z.of_nat (length points) ≤ gADCPointsPerPacket g →
  gADCPointsPerPacket g ≤ kPointsPerMediumSizePacket →
  ∃ p', Packet.add_points points p g = Some (true, p')
        ∧ Packet.wf p'
        ∧ Packet.mPoint p' = Packet.mPoint p + Z.of_nat (length points)
        ∧ Packet.mData p'
          = take (Z.to_nat (Packet.mPoint p)) (Packet.mData p)
            ++ ((λ pt, [pt.1; pt.2]) <$> points)
            ++ drop (Z.to_nat (Packet.mPoint p) + length points) (Packet.mData p).
Proof.
  revert p. induction points as [|[a b] points IH]; intros p Hwf Hfit HN.
  - exists p. simpl. rewrite Nat.add_0_r, take_drop.
    split_and!; try done. lia.
  - simpl length in Hfit.
    destruct (add_point_row p g a b Hwf) as (p0 & Hadd0 & Hadd1); [lia | done |].
    assert (Hwf0 : Packet.wf p0).
    { eapply addSample_wf; [exact Hwf | exact HN | | exact Hadd0].
      unfold kADCChannels. lia. }
    set (p1 := {| Packet.mPoint := Packet.mPoint p;
                  Packet.mData :=
                    <[Z.to_nat (Packet.mPoint p) := [a; b]]> (Packet.mData p) |})
      in Hadd1.
    assert (Hwf1 : Packet.wf p1).
    { eapply addSample_wf; [exact Hwf0 | exact HN | | exact Hadd1].
      unfold kADCChannels. lia. }
    assert (Hwfn : Packet.wf (Packet.nextPoint p1)).
    { destruct Hwf1 as (? & ? & ?). unfold Packet.wf. simpl in *.
      split_and!; try done. lia. }
    destruct (IH (Packet.nextPoint p1) Hwfn) as (p' & Hfill & Hwf' & Hpt & Hdata).
    { simpl. lia. }
    { done. }
    exists p'. cbn [Packet.add_points]. rewrite Hadd0. simpl.
    rewrite Hadd1. simpl. fold p1. rewrite Hfill. simpl.
    split; [done|]. split; [done|]. split; [simpl in Hpt; lia|].
    rewrite Hdata. simpl.
    assert (Hpt0 : 0 ≤ Packet.mPoint p) by apply Hwf.
    assert (Hin : (Z.to_nat (Packet.mPoint p) < length (Packet.mData p))%nat).
    { destruct Hwf as (_ & Hl & _). unfold kPointsPerMediumSizePacket in *. lia. }
    replace (Z.to_nat (Packet.mPoint p + 1)) with (S (Z.to_nat (Packet.mPoint p)))
      by lia.
    erewrite take_S_r by (by apply list_lookup_insert_eq).
    rewrite take_insert_ge by lia.
    rewrite drop_insert_lt by lia.
    rewrite <- app_assoc. simpl. by rewrite Nat.add_succ_r.
Qed.
End fill_facts.

(** X13. Filling and sending.  Starting from a new packet, with room
    configured for exactly the points given, the calls [addSample(0, a)],
    [addSample(1, b)], [nextPoint()] for each point all succeed; the packet
    is then full (any further [addSample] returns [false] and changes
    nothing), and [write] sends the magic, the tag, the sequence byte and
    the samples of the points in the order they were added, channel 0
    before channel 1, two bytes each, and nothing of what the array held
    before. *)
Theorem fill_then_write `{Target} (garbage : list (list Z))
  (points : list (Z * Z)) (g : Globals) (wire : Wire) :
  Packet.wf (Packet.create garbage) →
  gADCPointsPerPacket g = Z.of_nat (length points) →
  Z.of_nat (length points) ≤ kPointsPerMediumSizePacket →
  ∃ p,
    Packet.add_points points (Packet.create garbage) g = Some (true, p)
    ∧ Packet.mPoint p = Z.of_nat (length points)
    ∧ (∀ chan sample, Packet.addSample chan sample p g = Some (false, p))
    ∧ Packet.write p (g, wire)
      = Some (4 + 4 * Z.of_nat (length points),
              ({| sPacketCount := (sPacketCount g + 1) `mod` 256;
                  gADCPointsPerPacket := gADCPointsPerPacket g |},
               wire ++ [char "P"; 160;
                        if decide (length points = 1%nat) then char "D"
                        else char "M";
                        sPacketCount g]
                    ++ (pt ← points;
                        object_bytes 2 pt.1 ++ object_bytes 2 pt.2))).
Proof.
  intros Hwf HN Hfit.
  destruct (add_points_rows points (Packet.create garbage) g Hwf)
    as (p & Hfill & Hwf' & Hpt & Hdata); [simpl; lia | lia |].
  simpl in Hpt, Hdata. exists p. split; [done|]. split; [done|]. split.
  { intros chan sample. apply addSample_full. lia. }
  rewrite Packet_write_wire by (try done; lia). rewrite HN.
  do 4 f_equal.
  assert (Htag : (if decide (Z.of_nat (length points) = 1) then char "D"
                  else char "M")
                 = (if decide (length points = 1%nat) then char "D"
                    else char "M"))
    by (repeat case_decide; try done; lia).
  rewrite Htag. f_equal.
  rewrite Hdata, Nat2Z.id.
  rewrite take_app_length' by by rewrite length_fmap.
  rewrite list_fmap_bind. apply list_bind_ext; [|done].
  intros [a b]. simpl. by rewrite app_nil_r.
Qed.

Lemma fill_then_write_witness :
  Packet.wf (Packet.create (replicate 10 [77; 77]))
  ∧ gADCPointsPerPacket {| sPacketCount := 5; gADCPointsPerPacket := 2 |}
    = Z.of_nat (length [(1, 2); (3, -1)])
  ∧ Z.of_nat (length [(1, 2); (3, -1)]) ≤ kPointsPerMediumSizePacket
  ∧ ∃ p,
      Packet.add_points [(1, 2); (3, -1)] (Packet.create (replicate 10 [77; 77]))
        {| sPacketCount := 5; gADCPointsPerPacket := 2 |} = Some (true, p)
      ∧ Packet.write (H := {| native := LittleEndian |}) p
          ({| sPacketCount := 5; gADCPointsPerPacket := 2 |}, [])
        = Some (12, ({| sPacketCount := 6; gADCPointsPerPacket := 2 |},
                     [80; 160; 77; 5; 1; 0; 2; 0; 3; 0; 255; 255])).
Proof.
  assert (Hwf : Packet.wf (Packet.create (replicate 10 [77; 77]))).
  { unfold Packet.wf. simpl. split; [lia|]. split; [reflexivity|].
    repeat constructor. }
  assert (HN : gADCPointsPerPacket {| sPacketCount := 5; gADCPointsPerPacket := 2 |}
               = Z.of_nat (length [(1, 2); (3, -1)])) by reflexivity.
  assert (Hfit : Z.of_nat (length [(1, 2); (3, -1)]) ≤ kPointsPerMediumSizePacket)
    by (unfold kPointsPerMediumSizePacket; simpl; lia).
  split; [exact Hwf|]. split; [exact HN|]. split; [exact Hfit|].
  destruct (fill_then_write (H := {| native := LittleEndian |})
              (replicate 10 [77; 77]) [(1, 2); (3, -1)]
              {| sPacketCount := 5; gADCPointsPerPacket := 2 |} [] Hwf HN Hfit)
    as (p & Hfill & _ & _ & Hwrite).
  exists p. split; [exact Hfill | exact Hwrite].
Defined.

Section short_writes.
Context `{Target} {S : Type} `{Stream S}.

(** Runs the writer in the goal one call at a time. *)
Ltac run_calls :=
  repeat (erewrite IO_bind_Some
            by first [ apply stream_writeN_any | apply stream_write1_any
                     | apply get_points_any | apply post_incr_count_any
                     | apply defined_any ]).

(** Collects what the stream promises about each count in the goal. *)
Ltac stream_bounds :=
  repeat match goal with
         | |- context [(writeN ?bs ?s).1] =>
             lazymatch goal with
             | _ : _ ≤ (writeN bs s).1 ≤ _ |- _ => fail
             | _ => pose proof (writeN_count bs s)
             end
         | |- context [(write1 ?b ?s).1] =>
             lazymatch goal with
             | _ : _ ≤ (write1 b s).1 ≤ _ |- _ => fail
             | _ => pose proof (write1_count b s)
             end
         end.

Lemma payload_length (p : Packet.t) (points : Z) :
  Packet.wf p → 0 ≤ points ≤ kPointsPerMediumSizePacket →
  Z.of_nat (length (row ← take (Z.to_nat points) (Packet.mData p);
                    sample ← row; object_bytes 2 sample))
  = 4 * points.
Proof.
  intros Hwf HN. rewrite (bind_length_const _ 4).
  - rewrite length_take. destruct Hwf as (_ & Hl & _).
    unfold kPointsPerMediumSizePacket in *. lia.
  - apply Forall_take. by apply Packet_rows_bytes_length.
Qed.

Lemma TimePacket_writeData_bounds (p : TimePacket.t) (g : Globals) (s : S) :
  ∃ n s',
    TimePacket.writeData p (g, s)
    = Some (n, ({| sPacketCount := (sPacketCount g + 1) `mod` 256;
                   gADCPointsPerPacket := gADCPointsPerPacket g |}, s'))
    ∧ 0 ≤ n ≤ 6.
Proof.
  unfold TimePacket.writeData. run_calls. eexists _, _. split; [done|].
  stream_bounds. rewrite object_bytes_length in *. lia.
Qed.

Lemma write_bounds (p : packet) (g : Globals) (s : S) :
  writable g p →
  ∃ n s',
    write p (g, s)
    = Some (n, ({| sPacketCount := (sPacketCount g + 1) `mod` 256;
                   gADCPointsPerPacket := gADCPointsPerPacket g |}, s'))
    ∧ 0 ≤ n
      ≤ match p with
        | Data _ => 4 + 4 * gADCPointsPerPacket g
        | Time _ => 9
        | FirstSampleTime _ => 8
        | LatestUSBFrameTime _ => 15
        end.
Proof.
  intros Hw. destruct p as [p|p|p|p]; simpl in *.
  - destruct Hw as [Hwf HN]. unfold Packet.write.
    run_calls. rewrite (Packet_read_payload p _ Hwf HN).
    run_calls. eexists _, _. split; [done|].
    stream_bounds. rewrite payload_length in * by done.
    unfold Packet.sHeader in *. simpl length in *. lia.
  - unfold TimePacket.write. run_calls.
    destruct (TimePacket_writeData_bounds p g
                (writeN TimePacket.sHeaderAndPacketType s).2)
      as (n & s' & Hdata & Hn).
    erewrite IO_bind_Some by apply Hdata. eexists _, _. split; [done|].
    stream_bounds. unfold TimePacket.sHeaderAndPacketType in *.
    simpl length in *. lia.
  - unfold FirstSampleTimePacket.write. run_calls.
    eexists _, _. split; [done|].
    stream_bounds. rewrite object_bytes_length in *.
    unfold FirstSampleTimePacket.sHeaderAndPacketType in *.
    simpl length in *. lia.
  - unfold LatestUSBFrameTimePacket.write. run_calls.
    destruct (TimePacket_writeData_bounds (LatestUSBFrameTimePacket.base p) g
                (writeN LatestUSBFrameTimePacket.sHeaderAndPacketType s).2)
      as (n & s' & Hdata & Hn).
    erewrite IO_bind_Some by apply Hdata. run_calls.
    eexists _, _. split; [done|].
    stream_bounds. rewrite !object_bytes_length in *.
    unfold LatestUSBFrameTimePacket.sHeaderAndPacketType in *.
    simpl length in *. lia.
Qed.

Lemma emit_length (p : packet) (g : Globals) :
  writable g p →
  ∃ frame g',
    emit p g = Some (frame, g')
    ∧ Z.of_nat (length frame)
      = match p with
        | Data _ => 4 + 4 * gADCPointsPerPacket g
        | Time _ => 9
        | FirstSampleTime _ => 8
        | LatestUSBFrameTime _ => 15
        end.
Proof.
  intros Hw. destruct (write_frame p g Hw) as (frame & Hwrite & _).
  exists frame. eexists. split; [by eapply emit_wire|].
  pose proof (Hwrite []) as Hw0. destruct p as [p|p|p|p]; simpl in Hw, Hw0.
  - destruct Hw as [Hwf HN]. rewrite Packet_write_wire in Hw0 by done.
    by injection Hw0 as <- _.
  - rewrite TimePacket_write_wire in Hw0. by injection Hw0 as <- _.
  - rewrite FirstSampleTimePacket_write_wire in Hw0. by injection Hw0 as <- _.
  - rewrite LatestUSBFrameTimePacket_write_wire in Hw0. by injection Hw0 as <- _.
Qed.
End short_writes.

(** X14. Short writes.  On any stream, also one that accepts only a part
    of the bytes it is given or none at all, [write] of every class
    completes, returns the sum of the counts the stream reported, which is
    between 0 and the length of the full frame, and has moved the sequence
    count on by one: a packet that was cut short still uses up a sequence
    number. *)
Theorem write_to_any_stream `{Target} {S : Type} `{Stream S}
  (p : packet) (g : Globals) (s : S) :
  writable g p →
  ∃ n s' frame g',
    write p (g, s) = Some (n, (g', s'))
    ∧ emit p g = Some (frame, g')
    ∧ sPacketCount g' = (sPacketCount g + 1) `mod` 256
    ∧ gADCPointsPerPacket g' = gADCPointsPerPacket g
    ∧ 0 ≤ n ≤ Z.of_nat (length frame).
Proof.
  intros Hw.
  destruct (write_bounds p g s Hw) as (n & s' & Hwrite & Hn).
  destruct (emit_length p g Hw) as (frame & g' & Hemit & Hlen).
  destruct (write_frame p g Hw) as (frame' & Hwire & _).
  assert (Hemit' := emit_wire _ _ _ _ _ Hwire).
  rewrite Hemit in Hemit'. injection Hemit' as -> ->.
  exists n, s', frame'. eexists. split; [exact Hwrite|]. split; [exact Hemit|].
  split; [done|]. split; [done|]. lia.
Qed.

Lemma write_to_any_stream_witness :
  writable {| sPacketCount := 255; gADCPointsPerPacket := 1 |}
    (FirstSampleTime (FirstSampleTimePacket.create 9))
  ∧ ∃ frame,
      write (H := {| native := LittleEndian |}) (S := Blocked)
        (FirstSampleTime (FirstSampleTimePacket.create 9))
        ({| sPacketCount := 255; gADCPointsPerPacket := 1 |}, tt)
      = Some (0, ({| sPacketCount := 0; gADCPointsPerPacket := 1 |}, tt))
      ∧ emit (H := {| native := LittleEndian |})
          (FirstSampleTime (FirstSampleTimePacket.create 9))
          {| sPacketCount := 255; gADCPointsPerPacket := 1 |}
        = Some (frame, {| sPacketCount := 0; gADCPointsPerPacket := 1 |})
      ∧ 0 ≤ 0 ≤ Z.of_nat (length frame).
Proof.
  assert (Hw : writable {| sPacketCount := 255; gADCPointsPerPacket := 1 |}
                 (FirstSampleTime (FirstSampleTimePacket.create 9))) by exact I.
  split; [exact Hw|].
  destruct (write_to_any_stream (H := {| native := LittleEndian |}) (S := Blocked)
              (FirstSampleTime (FirstSampleTimePacket.create 9))
              {| sPacketCount := 255; gADCPointsPerPacket := 1 |} tt Hw)
    as (n & s' & frame & g' & Hwrite & Hemit & _ & _ & Hn).
  vm_compute in Hwrite. injection Hwrite as <- <- <-.
  exists frame. split; [reflexivity|]. split; [exact Hemit | exact Hn].
Defined.

(** X15. With zero points per packet configured, [Packet::write] sends a
    frame of four bytes, the magic, the tag ['M'] (the tag is ['D'] for
    exactly one point and ['M'] for every other count) and the sequence
    byte, with no payload, and returns 4. *)
Theorem DataPacket_zero_points `{Target}
  (p : Packet.t) (g : Globals) (wire : Wire) :
  Packet.wf p → gADCPointsPerPacket g = 0 →
  Packet.write p (g, wire)
  = Some (4, ({| sPacketCount := (sPacketCount g + 1) `mod` 256;
                 gADCPointsPerPacket := 0 |},
              wire ++ [char "P"; 160; char "M"; sPacketCount g])).
Proof.
  intros Hwf HN.
  rewrite Packet_write_wire
    by (try done; rewrite HN; unfold kPointsPerMediumSizePacket; lia).
  by rewrite HN.
Qed.

Lemma DataPacket_zero_points_witness :
  Packet.wf (Packet.create (replicate 10 [5; 6]))
  ∧ gADCPointsPerPacket {| sPacketCount := 7; gADCPointsPerPacket := 0 |} = 0
  ∧ Packet.write (H := {| native := LittleEndian |})
      (Packet.create (replicate 10 [5; 6]))
      ({| sPacketCount := 7; gADCPointsPerPacket := 0 |}, [])
    = Some (4, ({| sPacketCount := 8; gADCPointsPerPacket := 0 |},
                [80; 160; 77; 7])).
Proof.
  assert (Hwf : Packet.wf (Packet.create (replicate 10 [5; 6]))).
  { unfold Packet.wf. simpl. split; [lia|]. split; [reflexivity|].
    repeat constructor. }
  split; [exact Hwf|]. split; [reflexivity|].
  apply (DataPacket_zero_points (H := {| native := LittleEndian |})
           (Packet.create (replicate 10 [5; 6]))
           {| sPacketCount := 7; gADCPointsPerPacket := 0 |} [] Hwf eq_refl).
Defined.

(** X16. [Packet::write] does not compare the configured number of points
    with the storage of the packet: with more than
    [kPointsPerMediumSizePacket] points configured the payload it passes to
    the stream extends past the end of [mData], which is undefined. *)
Theorem DataPacket_write_past_storage `{Target}
  (p : Packet.t) (g : Globals) (wire : Wire) :
  Packet.wf p → kPointsPerMediumSizePacket < gADCPointsPerPacket g < 2 ^ 30 →
  Packet.write p (g, wire) = None.
Proof.
  intros Hwf HN. unfold kPointsPerMediumSizePacket in HN.
  pose proof (mData_bytes_length p Hwf) as Hlen.
  assert (Hread : read_object (Packet.mData_bytes p)
                    (to_size_t (2 * kADCChannels * gADCPointsPerPacket g))
                  = None).
  { unfold to_size_t, kADCChannels. rewrite Z.mod_small by lia.
    unfold read_object. by rewrite decide_False by lia. }
  unfold Packet.write.
  unfold mbind at 1 2 3 4 5 6 7, IO_bind, mret, IO_ret, get_points,
    post_incr_count, stream_write1, stream_writeN, defined. simpl.
  by rewrite Hread.
Qed.

Lemma DataPacket_write_past_storage_witness :
  Packet.wf (Packet.create (replicate 10 [5; 6]))
  ∧ kPointsPerMediumSizePacket
    < gADCPointsPerPacket {| sPacketCount := 7; gADCPointsPerPacket := 11 |}
    < 2 ^ 30
  ∧ Packet.write (H := {| native := LittleEndian |})
      (Packet.create (replicate 10 [5; 6]))
      ({| sPacketCount := 7; gADCPointsPerPacket := 11 |}, []) = None.
Proof.
  assert (Hwf : Packet.wf (Packet.create (replicate 10 [5; 6]))).
  { unfold Packet.wf. simpl. split; [lia|]. split; [reflexivity|].
    repeat constructor. }
  assert (HN : kPointsPerMediumSizePacket
               < gADCPointsPerPacket {| sPacketCount := 7; gADCPointsPerPacket := 11 |}
               < 2 ^ 30)
    by (unfold kPointsPerMediumSizePacket; simpl; lia).
  split; [exact Hwf|]. split; [exact HN|].
  apply (DataPacket_write_past_storage (H := {| native := LittleEndian |})
           (Packet.create (replicate 10 [5; 6]))
           {| sPacketCount := 7; gADCPointsPerPacket := 11 |} [] Hwf HN).
Defined.

(** X17. [addSample] checks the point index against the configured number
    of points only, and the channel not at all: while that check passes, a
    channel index outside [0, kADCChannels), or a point index that has
    reached [kPointsPerMediumSizePacket], makes the store fall outside the
    row, respectively outside the array, which is undefined. *)
Theorem addSample_out_of_bounds (p : Packet.t) (g : Globals) (chan sample : Z) :
  Packet.wf p → Packet.mPoint p < gADCPointsPerPacket g →
  ¬ (0 ≤ chan < kADCChannels) ∨ kPointsPerMediumSizePacket ≤ Packet.mPoint p →
  Packet.addSample chan sample p g = None.
Proof.
  intros (Hpt & Hlen & Hrows) Hroom Hout.
  unfold Packet.addSample. rewrite decide_False by lia.
  destruct (decide (kPointsPerMediumSizePacket ≤ Packet.mPoint p)) as [Hbig|Hin].
  - unfold arr_get. rewrite decide_True by done.
    by rewrite lookup_ge_None_2 by lia.
  - destruct Hout as [Hchan|]; [|done].
    destruct (arr_get_Some (Packet.mData p) (Packet.mPoint p)) as (row & -> & Hrow);
      [lia|].
    assert (Hset : arr_set row chan sample = None).
    { unfold arr_set. rewrite decide_False; [done|].
      by rewrite (Forall_lookup_1 _ _ _ _ Hrows Hrow). }
    simpl. by rewrite Hset.
Qed.

Lemma addSample_out_of_bounds_witness :
  Packet.wf (Packet.create (replicate 10 [5; 6]))
  ∧ Packet.mPoint (Packet.create (replicate 10 [5; 6]))
    < gADCPointsPerPacket {| sPacketCount := 0; gADCPointsPerPacket := 1 |}
  ∧ (¬ (0 ≤ 2 < kADCChannels)
     ∨ kPointsPerMediumSizePacket
       ≤ Packet.mPoint (Packet.create (replicate 10 [5; 6])))
  ∧ Packet.addSample 2 9 (Packet.create (replicate 10 [5; 6]))
      {| sPacketCount := 0; gADCPointsPerPacket := 1 |} = None.
Proof.
  assert (Hwf : Packet.wf (Packet.create (replicate 10 [5; 6]))).
  { unfold Packet.wf. simpl. split; [lia|]. split; [reflexivity|].
    repeat constructor. }
  assert (Hroom : Packet.mPoint (Packet.create (replicate 10 [5; 6]))
                  < gADCPointsPerPacket
                      {| sPacketCount := 0; gADCPointsPerPacket := 1 |})
    by (simpl; lia).
  assert (Hout : ¬ (0 ≤ 2 < kADCChannels)
                 ∨ kPointsPerMediumSizePacket
                   ≤ Packet.mPoint (Packet.create (replicate 10 [5; 6])))
    by (left; unfold kADCChannels; lia).
  split; [exact Hwf|]. split; [exact Hroom|]. split; [exact Hout|].
  apply (addSample_out_of_bounds (Packet.create (replicate 10 [5; 6]))
           {| sPacketCount := 0; gADCPointsPerPacket := 1 |} 2 9 Hwf Hroom Hout).
Defined.

(** X18. The sequence byte has period 256: in any sequence of writes, of
    whatever classes, two packets that are 256 writes apart carry the same
    sequence byte, so that a receiver cannot see the loss of exactly 256
    consecutive packets. *)
Theorem sequence_byte_period `{Target} (ps : list packet) (g : Globals) :
  0 ≤ sPacketCount g < 256 → Forall (writable g) ps →
  ∃ frames g',
    emit_all ps g = Some (frames, g')
    ∧ length frames = length ps
    ∧ ∀ (k : nat) frame later,
        frames !! k = Some frame → frames !! (k + 256)%nat = Some later →
        sequence_byte later = sequence_byte frame.
Proof.
  intros Hc Hps.
  destruct (write_all_frames ps g Hc Hps) as (frames & Hemit & _ & Hlen & Hbytes).
  eexists frames, _. split; [exact Hemit|]. split; [exact Hlen|].
  intros k frame later Hk Hlater.
  rewrite (Hbytes _ _ Hk), (Hbytes _ _ Hlater). f_equal.
  replace (sPacketCount g + Z.of_nat (k + 256))
    with (sPacketCount g + Z.of_nat k + 1 * 256) by lia.
  apply Z_mod_plus_full.
Qed.

Lemma sequence_byte_period_witness :
  0 ≤ sPacketCount {| sPacketCount := 3; gADCPointsPerPacket := 1 |} < 256
  ∧ Forall (writable {| sPacketCount := 3; gADCPointsPerPacket := 1 |})
      (replicate 257 (FirstSampleTime (FirstSampleTimePacket.create 0)))
  ∧ ∃ frames g',
      emit_all (H := {| native := LittleEndian |})
        (replicate 257 (FirstSampleTime (FirstSampleTimePacket.create 0)))
        {| sPacketCount := 3; gADCPointsPerPacket := 1 |} = Some (frames, g')
      ∧ length frames
        = length (replicate 257 (FirstSampleTime (FirstSampleTimePacket.create 0))).
Proof.
  assert (Hc : 0 ≤ sPacketCount {| sPacketCount := 3; gADCPointsPerPacket := 1 |}
               < 256) by (simpl; lia).
  assert (Hps : Forall (writable {| sPacketCount := 3; gADCPointsPerPacket := 1 |})
                  (replicate 257 (FirstSampleTime (FirstSampleTimePacket.create 0)))).
  { apply Forall_replicate. exact I. }
  split; [exact Hc|]. split; [exact Hps|].
  destruct (sequence_byte_period (H := {| native := LittleEndian |})
              _ _ Hc Hps) as (frames & g' & Hemit & Hlen & _).
  exists frames, g'. split; [exact Hemit | exact Hlen].
Defined.
